(** * LL1Parser: a shallow embedding of [LL1Parser.py]

    The Python class [LL1Parser] is embedded as a record of its attributes
    together with one Rocq function per method.  Python [set]s are [gset]s,
    the plain [dict]s are [gmap]s, the [OrderedDict] holding the grammar is an
    association list in insertion order, [print] appends to an output log,
    and a raised exception is an explicit result. *)

From Stdlib Require Import String Ascii Sorted.
From stdpp Require Import base option list gmap sets strings.

Local Open Scope string_scope.
Local Open Scope list_scope.
Local Open Scope nat_scope.

(** ** Results of a method call *)

Inductive exn : Type := KeyError | IndexError | TypeError.

(** [OutOfFuel] is not a Python outcome: it is what a [while] loop of the
    embedding answers when it is cut after the given number of rounds. *)
Inductive res (A : Type) : Type :=
  | Ok (a : A)
  | Raise (e : exn)
  | OutOfFuel.
Arguments Ok {A} a.
Arguments Raise {A} e.
Arguments OutOfFuel {A}.

#[global] Instance res_ret : MRet res := fun A a => Ok a.

#[global] Instance res_bind : MBind res := fun A B k r =>
  match r with
  | Ok a => k a
  | Raise e => Raise e
  | OutOfFuel => OutOfFuel
  end.

(** [for x in l: body] over a state [s]; the first exception ends the loop. *)
Fixpoint for_each {A S : Type} (l : list A) (body : A → S → res S) (s : S)
  : res S :=
  match l with
  | [] => Ok s
  | x :: l' => s' ← body x s; for_each l' body s'
  end.

(** [changed = True; while changed: changed = False; pass], cut after [fuel]
    rounds: a round takes the dict and gives it back with the flag. *)
Fixpoint while_changed {D : Type} (fuel : nat) (pass : D → res (D * bool))
  (d : D) : res D :=
  match fuel with
  | O => OutOfFuel
  | S fuel' =>
      '(d', changed) ← pass d;
      if changed : bool then while_changed fuel' pass d' else Ok d'
  end.

(** [d[k]] on a dict: a missing key raises [KeyError]. *)
Definition getitem `{Countable K} {V : Type} (d : gmap K V) (k : K) : res V :=
  match d !! k with
  | Some v => Ok v
  | None => Raise KeyError
  end.

(** ** Strings as Python uses them here *)

Module Str.

(** [str.isspace] on the ASCII range: tab, line feed, vertical tab, form
    feed, carriage return, the four separators 0x1c-0x1f and the space.
    Strings are sequences of UTF-8 bytes; the white space Python knows
    outside ASCII is not modelled. *)
Definition is_space (c : ascii) : bool :=
  let n := nat_of_ascii c in
  ((9 <=? n) && (n <=? 13) || (28 <=? n) && (n <=? 32))%nat.

Definition is_empty (s : string) : bool :=
  match s with EmptyString => true | String _ _ => false end.

Fixpoint lstrip (s : string) : string :=
  match s with
  | EmptyString => EmptyString
  | String c r => if is_space c then lstrip r else s
  end.

Fixpoint rstrip (s : string) : string :=
  match s with
  | EmptyString => EmptyString
  | String c r =>
      let r' := rstrip r in
      if is_empty r' && is_space c then EmptyString else String c r'
  end.

(** [s.strip()] *)
Definition strip (s : string) : string := rstrip (lstrip s).

(** [s.startswith(pre)] *)
Fixpoint startswith (pre s : string) : bool :=
  match pre, s with
  | EmptyString, _ => true
  | String _ _, EmptyString => false
  | String a pre', String b s' => Ascii.eqb a b && startswith pre' s'
  end.

(** [sub in s] *)
Fixpoint contains (sub s : string) : bool :=
  startswith sub s ||
  match s with
  | EmptyString => false
  | String _ r => contains sub r
  end.

Definition snoc (s : string) (c : ascii) : string :=
  String.append s (String c EmptyString).

(** [s.split(sep)] for a separator that is not empty: [cur] is the piece
    being read and [skip] counts the characters of a separator, found one
    step earlier, that are still to be passed over. *)
Fixpoint split_from (sep : string) (skip : nat) (cur s : string)
  : list string :=
  match s with
  | EmptyString => [cur]
  | String c r =>
      match skip with
      | S k => split_from sep k cur r
      | O =>
          if startswith sep s
          then cur :: split_from sep (String.length sep - 1)%nat EmptyString r
          else split_from sep O (snoc cur c) r
      end
  end.

Definition split (sep s : string) : list string :=
  split_from sep O EmptyString s.

(** [s.split()]: the maximal runs of characters that are not white
    space. *)
Fixpoint words_from (cur s : string) : list string :=
  match s with
  | EmptyString => if is_empty cur then [] else [cur]
  | String c r =>
      if is_space c
      then (if is_empty cur then words_from EmptyString r
            else cur :: words_from EmptyString r)
      else words_from (snoc cur c) r
  end.

Definition words (s : string) : list string := words_from EmptyString s.

(** [sep.join(l)] *)
Definition join (sep : string) (l : list string) : string :=
  String.concat sep l.

(** [sorted(l)] on strings: Python orders [str] by code point, which on
    UTF-8 is the order of the byte sequences. *)
Fixpoint insert_sorted (x : string) (l : list string) : list string :=
  match l with
  | [] => [x]
  | y :: l' => if String.leb x y then x :: l else y :: insert_sorted x l'
  end.

Definition sorted (l : list string) : list string :=
  foldr insert_sorted [] l.

End Str.

(** The two reserved symbols. *)
Definition EPS : string := "ε".
Definition EOI : string := "$".

(** ** The parser object *)

(** A production is the list of the symbols of its body. *)
Abbreviation production := (list string).

Record LL1Parser : Type := mkParser {
  grammar : list (string * list production);
  non_terminals : list string;
  terminals : list string;
  first_sets : gmap string (gset string);
  follow_sets : gmap string (gset string);
  parse_table : gmap (string * string) (option production);
  start_symbol : option string
}.

(** [LL1Parser.__init__] *)
Definition init : LL1Parser :=
  {| grammar := [];
     non_terminals := [];
     terminals := [];
     first_sets := ∅;
     follow_sets := ∅;
     parse_table := ∅;
     start_symbol := None |}.

(** *** The grammar as an ordered dict *)

Fixpoint grammar_get (g : list (string * list production)) (nt : string)
  : option (list production) :=
  match g with
  | [] => None
  | (k, ps) :: g' => if decide (k = nt) then Some ps else grammar_get g' nt
  end.

(** [self.grammar[nt]] *)
Definition grammar_getitem (g : list (string * list production)) (nt : string)
  : res (list production) :=
  match grammar_get g nt with
  | Some ps => Ok ps
  | None => Raise KeyError
  end.

(** [self.grammar[nt].extend(ps)] on a key that is present. *)
Fixpoint grammar_extend (g : list (string * list production)) (nt : string)
  (ps : list production) : list (string * list production) :=
  match g with
  | [] => []
  | (k, qs) :: g' =>
      if decide (k = nt) then (k, qs ++ ps) :: g'
      else (k, qs) :: grammar_extend g' nt ps
  end.

(** [if nt not in self.grammar: self.grammar[nt] = []] *)
Definition grammar_setdefault (g : list (string * list production))
  (nt : string) : list (string * list production) :=
  match grammar_get g nt with
  | Some _ => g
  | None => g ++ [(nt, [])]
  end.

(** ** [read_grammar] and [_find_terminals] *)

(** The symbols [_find_terminals] collects from one production. *)
Definition terminals_of_production (nts : list string) (p : production)
  (acc : gset string) : gset string :=
  foldl (fun acc symbol =>
           if bool_decide (symbol ≠ EPS) && bool_decide (symbol ∉ nts)
           then {[symbol]} ∪ acc else acc) acc p.

Definition find_terminals (self : LL1Parser) : LL1Parser :=
  let found :=
    foldl (fun acc item =>
             foldl (fun acc p => terminals_of_production (non_terminals self) p acc)
                   acc (snd item))
          (∅ : gset string) (grammar self) in
  {| grammar := grammar self;
     non_terminals := non_terminals self;
     terminals := Str.sorted (elements found) ++ [EOI];
     first_sets := first_sets self;
     follow_sets := follow_sets self;
     parse_table := parse_table self;
     start_symbol := start_symbol self |}.

(** One round of the loop over the lines of the file: the object and the
    output so far go in, and come out updated. *)
Definition read_line (st : LL1Parser * list string) (raw : string)
  : LL1Parser * list string :=
  let '(self, out) := st in
  let line := Str.strip raw in
  if Str.is_empty line || Str.startswith "#" line then st
  else if negb (Str.contains "->" line)
  then (self, out ++ [String.append "Format error in line: " line])
  else
    let parts := Str.split "->" line in
    let non_terminal := Str.strip (nth 0 parts EmptyString) in
    let productions :=
      map Str.words (Str.split "|" (nth 1 parts EmptyString)) in
    let g := grammar_extend (grammar_setdefault (grammar self) non_terminal)
               non_terminal productions in
    let nts :=
      if bool_decide (non_terminal ∉ non_terminals self)
      then non_terminals self ++ [non_terminal]
      else non_terminals self in
    ({| grammar := g;
        non_terminals := nts;
        terminals := terminals self;
        first_sets := first_sets self;
        follow_sets := follow_sets self;
        parse_table := parse_table self;
        start_symbol := start_symbol self |}, out).

(** [read_grammar(file_path)]: [file] is what the path holds, [None] when
    [os.path.exists] answers no and otherwise the list [readlines] gives.
    The answer is the returned flag, the object afterwards and the text
    printed. *)
Definition read_grammar (self : LL1Parser) (file : option (list string))
  : bool * LL1Parser * list string :=
  match file with
  | None => (false, self, ["Error: File not found!"])
  | Some lines =>
      let '(self1, out) := foldl read_line (self, []) lines in
      match grammar self1 with
      | [] => (false, self1, out ++ ["Error: No production rules found!"])
      | (k, _) :: _ =>
          (true,
           find_terminals
             {| grammar := grammar self1;
                non_terminals := non_terminals self1;
                terminals := terminals self1;
                first_sets := first_sets self1;
                follow_sets := follow_sets self1;
                parse_table := parse_table self1;
                start_symbol := Some k |},
           out)
      end
  end.

(** Attribute assignments. *)
Definition set_first_sets (self : LL1Parser) (fs : gmap string (gset string))
  : LL1Parser :=
  {| grammar := grammar self;
     non_terminals := non_terminals self;
     terminals := terminals self;
     first_sets := fs;
     follow_sets := follow_sets self;
     parse_table := parse_table self;
     start_symbol := start_symbol self |}.

Definition set_follow_sets (self : LL1Parser) (fs : gmap string (gset string))
  : LL1Parser :=
  {| grammar := grammar self;
     non_terminals := non_terminals self;
     terminals := terminals self;
     first_sets := first_sets self;
     follow_sets := fs;
     parse_table := parse_table self;
     start_symbol := start_symbol self |}.

Definition set_parse_table (self : LL1Parser)
  (t : gmap (string * string) (option production)) : LL1Parser :=
  {| grammar := grammar self;
     non_terminals := non_terminals self;
     terminals := terminals self;
     first_sets := first_sets self;
     follow_sets := follow_sets self;
     parse_table := t;
     start_symbol := start_symbol self |}.

(** ** [_compute_first_for_sequence] *)

(** The [for i, symbol in enumerate(sequence)] loop: [n] is
    [len(sequence)], [i] the index of the head of [seq], and [first_set] the
    set built so far.  Returning without a recursive call is [break]. *)
Fixpoint first_scan (terms : list string) (fs : gmap string (gset string))
  (n i : nat) (seq : list string) (first_set : gset string) : gset string :=
  match seq with
  | [] => first_set
  | symbol :: rest =>
      if decide (symbol = EPS) then first_set ∪ {[EPS]}
      else if decide (symbol ∈ terms) then first_set ∪ {[symbol]}
      else
        let symbol_first := default ∅ (fs !! symbol) in
        if decide (EPS ∈ symbol_first) then
          let first_set := first_set ∪ (symbol_first ∖ {[EPS]}) in
          let first_set :=
            if decide (i = n - 1)%nat then first_set ∪ {[EPS]}
            else first_set in
          first_scan terms fs n (S i) rest first_set
        else first_set ∪ symbol_first
  end.

Definition compute_first_for_sequence (terms : list string)
  (fs : gmap string (gset string)) (sequence : list string) : gset string :=
  match sequence with
  | [] => ∅
  | _ :: _ => first_scan terms fs (length sequence) 0 sequence ∅
  end.

(** ** [compute_first_sets] *)

(** [{nt: set() for nt in self.non_terminals}] *)
Definition empty_sets (nts : list string) : gmap string (gset string) :=
  list_to_map ((fun nt => (nt, ∅)) <$> nts).

(** The body of the loop over the productions of [non_terminal]; the state
    is the dict of FIRST sets with the flag [changed]. *)
Definition first_step (terms : list string) (non_terminal : string)
  (p : production) (st : gmap string (gset string) * bool)
  : res (gmap string (gset string) * bool) :=
  let first_set := compute_first_for_sequence terms st.1 p in
  cur ← getitem st.1 non_terminal;
  if decide (first_set ⊆ cur) then Ok st
  else Ok (<[non_terminal := cur ∪ first_set]> st.1, true).

(** One round of [while changed]: a pass over all non-terminals. *)
Definition first_pass (self : LL1Parser) (fs : gmap string (gset string))
  : res (gmap string (gset string) * bool) :=
  for_each (non_terminals self)
    (fun non_terminal st =>
       prods ← grammar_getitem (grammar self) non_terminal;
       for_each prods (first_step (terminals self) non_terminal) st)
    (fs, false).

Definition first_loop (fuel : nat) (self : LL1Parser)
  (fs : gmap string (gset string)) : res (gmap string (gset string)) :=
  while_changed fuel (first_pass self) fs.

(** A number of rounds the loop cannot need more than: every round but the
    last adds a symbol to some FIRST set, and the sets hold terminals and
    the empty marker only. *)
Definition first_fuel (self : LL1Parser) : nat :=
  S (length (non_terminals self) * S (length (terminals self))).

(** [compute_first_sets]: the returned dict is the attribute of the object
    that comes back. *)
Definition compute_first_sets (self : LL1Parser) : res LL1Parser :=
  fs ← first_loop (first_fuel self) self (empty_sets (non_terminals self));
  Ok (set_first_sets self fs).

(** ** [compute_follow_sets] *)

(** The body of [for i, symbol in enumerate(production)]: [n] is
    [len(production)] and [remainder] is [production[i+1:]]. *)
Definition follow_symbol (self : LL1Parser) (non_terminal : string)
  (n i : nat) (symbol : string) (remainder : list string)
  (st : gmap string (gset string) * bool)
  : res (gmap string (gset string) * bool) :=
  if decide (symbol ∈ non_terminals self) then
    let first_remainder :=
      compute_first_for_sequence (terminals self) (first_sets self) remainder in
    let new_follows := first_remainder ∖ {[EPS]} in
    cur ← getitem st.1 symbol;
    let st1 :=
      if decide (new_follows ⊆ cur) then st
      else (<[symbol := cur ∪ new_follows]> st.1, true) in
    if decide (EPS ∈ first_remainder ∨ i = (n - 1)%nat) then
      of_head ← getitem st1.1 non_terminal;
      of_symbol ← getitem st1.1 symbol;
      if decide (of_head ⊆ of_symbol) then Ok st1
      else Ok (<[symbol := of_symbol ∪ of_head]> st1.1, true)
    else Ok st1
  else Ok st.

Fixpoint follow_scan (self : LL1Parser) (non_terminal : string) (n i : nat)
  (seq : list string) (st : gmap string (gset string) * bool)
  : res (gmap string (gset string) * bool) :=
  match seq with
  | [] => Ok st
  | symbol :: remainder =>
      st' ← follow_symbol self non_terminal n i symbol remainder st;
      follow_scan self non_terminal n (S i) remainder st'
  end.

Definition follow_pass (self : LL1Parser) (fol : gmap string (gset string))
  : res (gmap string (gset string) * bool) :=
  for_each (non_terminals self)
    (fun non_terminal st =>
       prods ← grammar_getitem (grammar self) non_terminal;
       for_each prods
         (fun p st => follow_scan self non_terminal (length p) 0 p st) st)
    (fol, false).

Definition follow_loop (fuel : nat) (self : LL1Parser)
  (fol : gmap string (gset string)) : res (gmap string (gset string)) :=
  while_changed fuel (follow_pass self) fol.

(** Every symbol a FOLLOW set can ever hold. *)
Definition follow_universe (self : LL1Parser) : gset string :=
  {[EOI]} ∪ list_to_set (terminals self) ∪ {[EPS]}
  ∪ ⋃ (snd <$> map_to_list (first_sets self)).


Definition follow_fuel (self : LL1Parser) : nat :=
  S (length (non_terminals self) * size (follow_universe self)).

(** [self.follow_sets[self.start_symbol].add('$')]: without a start symbol
    the key is [None], which the dict does not hold. *)
Definition seed_follow (self : LL1Parser) : res (gmap string (gset string)) :=
  let fol := empty_sets (non_terminals self) in
  match start_symbol self with
  | None => Raise KeyError
  | Some s => cur ← getitem fol s; Ok (<[s := cur ∪ {[EOI]}]> fol)
  end.

Definition compute_follow_sets (self : LL1Parser) : res LL1Parser :=
  fol0 ← seed_follow self;
  fol ← follow_loop (follow_fuel self) self fol0;
  Ok (set_follow_sets self fol).

(** ** [build_parse_table] *)

Definition conflict_warning (non_terminal terminal : string) : string :=
  String.concat EmptyString
    ["Warning: Conflict in parse table for ("; non_terminal; ", "; terminal; ")"].

(** The three lines that both inner loops share: look at the cell, warn
    when it is taken, store the production.  The state is the table with
    the text printed so far. *)
Definition assign_cell (non_terminal : string) (p : production)
  (terminal : string)
  (st : gmap (string * string) (option production) * list string)
  : res (gmap (string * string) (option production) * list string) :=
  cell ← getitem st.1 (non_terminal, terminal);
  let out :=
    match cell with
    | Some _ => st.2 ++ [conflict_warning non_terminal terminal]
    | None => st.2
    end in
  Ok (<[(non_terminal, terminal) := Some p]> st.1, out).

(** The body of [for production in self.grammar[non_terminal]].  A set is
    walked in the order [elements] lists it. *)
Definition fill_production (self : LL1Parser) (non_terminal : string)
  (p : production)
  (st : gmap (string * string) (option production) * list string)
  : res (gmap (string * string) (option production) * list string) :=
  let first_alpha :=
    compute_first_for_sequence (terminals self) (first_sets self) p in
  st1 ← for_each (elements first_alpha)
          (fun terminal st =>
             if decide (terminal ≠ EPS)
             then assign_cell non_terminal p terminal st
             else Ok st) st;
  if decide (EPS ∈ first_alpha) then
    fol ← getitem (follow_sets self) non_terminal;
    for_each (elements fol) (assign_cell non_terminal p) st1
  else Ok st1.

(** The table with every cell of the grid set to [None]. *)
Definition init_table (nts terms : list string)
  : gmap (string * string) (option production) :=
  foldl (fun tab non_terminal =>
           foldl (fun tab terminal => <[(non_terminal, terminal) := None]> tab)
                 tab terms)
        ∅ nts.

Definition fill_table (self : LL1Parser)
  (st : gmap (string * string) (option production) * list string)
  : res (gmap (string * string) (option production) * list string) :=
  for_each (non_terminals self)
    (fun non_terminal st =>
       prods ← grammar_getitem (grammar self) non_terminal;
       for_each prods (fill_production self non_terminal) st)
    st.

(** [build_parse_table]: the object with its table, and the text printed. *)
Definition build_parse_table (self : LL1Parser)
  : res (LL1Parser * list string) :=
  '(tab, out) ← fill_table self
                  (init_table (non_terminals self) (terminals self), []);
  Ok (set_parse_table self tab, out).

(** ** [parse_input] *)

Record step : Type := mkStep {
  step_stack : string;
  step_input : string;
  step_action : string
}.

(** The local variables of [parse_input] that the loop changes.  [stack]
    is the Python list read from its end: the head is [stack[-1]], the top,
    so [append] is a cons, [pop] takes the tail, and the list is turned
    round where the code prints it. *)
Record machine : Type := mkMachine {
  stack : list string;
  pointer : nat;
  steps : list step;
  accepted : bool
}.

(** What one round of the loop ends in: the next round, or [break]. *)
Inductive flow : Type :=
  | Continue (m : machine)
  | Break (m : machine).

Definition fmt (parts : list string) : string :=
  String.concat EmptyString parts.

(** [for symbol in reversed(production): stack.append(symbol)] *)
Definition push_reversed (p : production) (stk : list string) : list string :=
  foldl (fun stk symbol => symbol :: stk) stk (rev p).

(** The body of [while len(stack) > 0], entered with [top] over [below]. *)
Definition parse_iter (terms : list string)
  (table : gmap (string * string) (option production))
  (input_string : list string) (m : machine) (top : string)
  (below : list string) : res flow :=
  match input_string !! pointer m with
  | None => Raise IndexError
  | Some current_input =>
      let record action :=
        steps m ++
        [{| step_stack := Str.join " " (rev (stack m));
            step_input := Str.join " " (drop (pointer m) input_string);
            step_action := action |}] in
      if decide (top = EOI ∧ current_input = EOI) then
        Ok (Break {| stack := stack m; pointer := pointer m;
                     steps := record "Accept"; accepted := true |})
      else if decide (top ∈ terms) then
        if decide (top = current_input) then
          Ok (Continue {| stack := below; pointer := S (pointer m);
                          steps := record (fmt ["Match terminal: "; top]);
                          accepted := accepted m |})
        else
          Ok (Break {| stack := stack m; pointer := pointer m;
                       steps := record (fmt ["Error: Expected "; top;
                                             " but got "; current_input]);
                       accepted := accepted m |})
      else
        match default None (table !! (top, current_input)) with
        | Some p =>
            Ok (Continue
                  {| stack := if decide (p ≠ [EPS]) then push_reversed p below
                              else below;
                     pointer := pointer m;
                     steps := record (fmt ["Apply rule: "; top; " -> ";
                                           Str.join " " p]);
                     accepted := accepted m |})
        | None =>
            Ok (Break {| stack := stack m; pointer := pointer m;
                         steps := record (fmt ["Error: No rule for ("; top;
                                               ", "; current_input; ")"]);
                         accepted := accepted m |})
        end
  end.

(** [while len(stack) > 0], cut after [fuel] rounds. *)
Fixpoint parse_loop (fuel : nat) (terms : list string)
  (table : gmap (string * string) (option production))
  (input_string : list string) (m : machine) : res machine :=
  match fuel with
  | O => OutOfFuel
  | S fuel' =>
      match stack m with
      | [] => Ok m
      | top :: below =>
          r ← parse_iter terms table input_string m top below;
          match r with
          | Continue m' => parse_loop fuel' terms table input_string m'
          | Break m' => Ok m'
          end
      end
  end.

(** The state before the first round, for the tokens typed by the user. *)
Definition initial (start : string) : machine :=
  {| stack := [start; EOI]; pointer := 0; steps := []; accepted := false |}.

Definition end_marked (tokens : list string) : list string := tokens ++ [EOI].

(** The run on a table, a start symbol and a token sequence. *)
Definition parse (fuel : nat) (terms : list string)
  (table : gmap (string * string) (option production)) (start : string)
  (tokens : list string) : res machine :=
  parse_loop fuel terms table (end_marked tokens) (initial start).


(** ** The specification's own words, for comparison *)

(** A line of the grammar file that [read_grammar] takes for a rule: not
    blank and not a comment once stripped, and holding the separator. *)
Definition is_rule_line (raw : string) : bool :=
  let line := Str.strip raw in
  negb (Str.is_empty line) && negb (Str.startswith "#" line)
  && Str.contains "->" line.

(** [first_of_sequence] as section 4.2 words it, symbol by symbol from the
    left: the empty marker and a terminal end the scan with themselves; a
    non-terminal gives its FIRST set without the empty marker and lets the
    scan go on only when it is nullable, and a nullable last symbol gives the
    empty marker. *)
Fixpoint first_of_sequence (terms : list string)
  (fs : gmap string (gset string)) (seq : list string) : gset string :=
  match seq with
  | [] => ∅
  | symbol :: rest =>
      if decide (symbol = EPS) then {[EPS]}
      else if decide (symbol ∈ terms) then {[symbol]}
      else
        let symbol_first := default ∅ (fs !! symbol) in
        (symbol_first ∖ {[EPS]}) ∪
        (if decide (EPS ∈ symbol_first) then
           match rest with
           | [] => {[EPS]}
           | _ :: _ => first_of_sequence terms fs rest
           end
         else ∅)
  end.





(** The states the loop of [parse_input] passes through, from a given one. *)
Inductive reaches (terms : list string)
  (table : gmap (string * string) (option production))
  (input : list string) : machine → machine → Prop :=
  | reaches_here m : reaches terms table input m m
  | reaches_next m top below m1 m2 :
      stack m = top :: below →
      parse_iter terms table input m top below = Ok (Continue m1) →
      reaches terms table input m1 m2 →
      reaches terms table input m m2.

(** ** How the two fixed-point loops change their dict *)

Section Growth.

(** The keys the loop walks over. *)
Variable nts : list string.

(** Every set of the dict lies within [U]. *)
Definition bounded (U : gset string) (fs : gmap string (gset string))
  : Prop :=
  ∀ k v, fs !! k = Some v → v ⊆ U.

(** The sizes of the sets of the walked keys, summed. *)
Definition weight (fs : gmap string (gset string)) : nat :=
  sum_list ((fun nt => size (default ∅ (fs !! nt))) <$> nts).

(** The one way both loops write: [d[k].update(extra)] with [changed =
    True], done only when [extra] is not yet within [d[k]]; [extra] holds
    symbols of [allowed] or symbols the dict has already. *)
Inductive grow (allowed : gset string)
  : relation (gmap string (gset string) * bool) :=
  | grow_add fs changed k cur extra :
      k ∈ nts →
      fs !! k = Some cur →
      extra ⊈ cur →
      (∀ x, x ∈ extra →
            x ∈ allowed ∨ ∃ k' v', fs !! k' = Some v' ∧ x ∈ v') →
      grow allowed (fs, changed) (<[k := cur ∪ extra]> fs, true).

End Growth.

(** The symbols a FIRST set can hold. *)
Definition first_universe (self : LL1Parser) : gset string :=
  list_to_set (terminals self) ∪ {[EPS]}.

(** The symbols of the FIRST sets the object holds. *)
Definition first_symbols (self : LL1Parser) : gset string :=
  ⋃ (snd <$> map_to_list (first_sets self)).

(** Every non-terminal walked has its productions in the grammar, as when
    [read_grammar] has filled both. *)
Definition keyed (self : LL1Parser) : Prop :=
  Forall (fun nt => is_Some (grammar_get (grammar self) nt))
         (non_terminals self).

(** The dict has a set for every key walked. *)
Definition covers (nts : list string) (fs : gmap string (gset string))
  : Prop :=
  ∀ k, k ∈ nts → is_Some (fs !! k).

(** The start symbol is set, to one of the non-terminals. *)
Definition started (self : LL1Parser) : Prop :=
  ∃ s, start_symbol self = Some s ∧ s ∈ non_terminals self.

(** ** The three calls [main] makes once the grammar is read *)

Definition analyse (self : LL1Parser) : res (LL1Parser * list string) :=
  self1 ← compute_first_sets self;
  self2 ← compute_follow_sets self1;
  build_parse_table self2.

(** ** Grammar files used below *)

(** The object [read_grammar] leaves for a file with the given lines. *)
Definition parser_of (lines : list string) : LL1Parser :=
  (read_grammar init (Some lines)).1.2.

Definition ambiguous_grammar : LL1Parser := parser_of ["S -> a | a b"].


Definition nullable_grammar : LL1Parser :=
  parser_of ["S -> A a"; "A -> a | ε"].

Definition expression_grammar : LL1Parser :=
  parser_of ["E -> T X"; "X -> + T X | ε"; "T -> F Y"; "Y -> * F Y | ε";
             "F -> ( E ) | id"].

(** The object after [analyse], when it answers. *)
Definition analysed (self : LL1Parser) : LL1Parser :=
  match analyse self with
  | Ok (self', _) => self'
  | _ => self
  end.

(** ** The assignments [build_parse_table] makes *)

(** FIRST of a production body, with the sets the object holds. *)
Definition first_alpha (self : LL1Parser) (p : production) : gset string :=
  compute_first_for_sequence (terminals self) (first_sets self) p.

(** The terminals under which [fill_production] stores [p], in the order
    of its two loops: the symbols of FIRST other than the empty marker, then
    FOLLOW of the head when FIRST holds the empty marker. *)
Definition targets (self : LL1Parser) (non_terminal : string) (p : production)
  : list string :=
  filter (fun terminal => terminal ≠ EPS) (elements (first_alpha self p))
  ++ (if decide (EPS ∈ first_alpha self p)
      then elements (default ∅ (follow_sets self !! non_terminal))
      else []).

(** Production [p] of [non_terminal] populates the cell of [terminal]. *)
Definition populates (self : LL1Parser) (non_terminal : string)
  (p : production) (terminal : string) : Prop :=
  (terminal ∈ first_alpha self p ∧ terminal ≠ EPS)
  ∨ (EPS ∈ first_alpha self p
     ∧ ∃ fol, follow_sets self !! non_terminal = Some fol ∧ terminal ∈ fol).

(** The stores of the fill loops, in the order they are made: those for
    one production, for one non-terminal, and all of them. *)
Definition production_stores (self : LL1Parser) (non_terminal : string)
  (p : production) : list (string * production * string) :=
  (fun terminal => (non_terminal, p, terminal))
  <$> targets self non_terminal p.

Definition non_terminal_stores (self : LL1Parser) (non_terminal : string)
  : list (string * production * string) :=
  default [] (grammar_get (grammar self) non_terminal)
  ≫= production_stores self non_terminal.

Definition assignments (self : LL1Parser)
  : list (string * production * string) :=
  non_terminals self ≫= non_terminal_stores self.

Definition assign (a : string * production * string)
  (st : gmap (string * string) (option production) * list string)
  : res (gmap (string * string) (option production) * list string) :=
  assign_cell a.1.1 a.1.2 a.2 st.

Definition cell_of (a : string * production * string) : string * string :=
  (a.1.1, a.2).

(** ** Grammars without overlap *)

(** No two alternatives of a non-terminal, at different places in its list,
    have FIRST sets with a common symbol. *)
Definition first_first_free (self : LL1Parser) : Prop :=
  ∀ nt prods i j p q,
    nt ∈ non_terminals self →
    grammar_get (grammar self) nt = Some prods →
    prods !! i = Some p → prods !! j = Some q → i ≠ j →
    first_alpha self p ## first_alpha self q.

(** No nullable alternative has a FIRST set with a symbol of the FOLLOW set
    of its non-terminal. *)
Definition nullable_follow_free (self : LL1Parser) : Prop :=
  ∀ nt prods p fol,
    nt ∈ non_terminals self →
    grammar_get (grammar self) nt = Some prods →
    p ∈ prods → EPS ∈ first_alpha self p →
    follow_sets self !! nt = Some fol →
    first_alpha self p ## fol.

(** Where a non-terminal has a nullable alternative, no alternative of it,
    that one or another, has a FIRST set with a symbol of its FOLLOW set. *)
Definition first_follow_free (self : LL1Parser) : Prop :=
  ∀ nt prods p q fol,
    nt ∈ non_terminals self →
    grammar_get (grammar self) nt = Some prods →
    p ∈ prods → q ∈ prods → EPS ∈ first_alpha self p →
    follow_sets self !! nt = Some fol →
    first_alpha self q ## fol.

(** The object after the two set computations, when they answer. *)
Definition prepared (self : LL1Parser) : LL1Parser :=
  match self1 ← compute_first_sets self; compute_follow_sets self1 with
  | Ok self2 => self2
  | _ => self
  end.

(** What [read_grammar] leaves behind when it succeeds: productions for
    every non-terminal, each non-terminal listed once, the start symbol among
    them, and the end-of-input marker among the terminals. *)
Definition well_formed (self : LL1Parser) : Prop :=
  keyed self ∧ started self ∧ NoDup (non_terminals self)
  ∧ EOI ∈ terminals self.

(** The table has a cell for every non-terminal and terminal. *)
Definition gridded (self : LL1Parser)
  (tab : gmap (string * string) (option production)) : Prop :=
  ∀ nt t, nt ∈ non_terminals self → t ∈ terminals self →
          is_Some (tab !! (nt, t)).

(** ** The parts of a rule line *)





(** ** Proof steps used more than once *)

(** Closed facts about sets and lists are settled by evaluation. *)
Ltac evaluate := apply (bool_decide_unpack _); vm_compute; exact I.

Ltac refute H :=
  exfalso; revert H;
  lazymatch goal with |- ?P → False => change (¬ P) end;
  evaluate.

(** Case analysis on a member of a list that is known in full. *)
Ltac members H :=
  repeat (apply elem_of_cons in H as [->|H]);
  [..|apply elem_of_nil in H; destruct H].

(** A set found under a key of a closed dict, named by its lookup. *)
Ltac looked_up H :=
  lazymatch type of H with
  | ?d !! ?k = Some ?v =>
      assert (v = default ∅ (d !! k)) as -> by (rewrite H; reflexivity);
      clear H
  end.

(** Case analysis on an index into a list of at most three elements that
    is known in full. *)
Ltac at_index i H :=
  destruct i as [|[|[|?]]]; vm_compute in H;
  first [discriminate H | injection H as <-].

(** * Properties *)

(** ** Loops and results *)

Lemma for_each_app {A S : Type} (l1 l2 : list A) (body : A → S → res S) s :
  for_each (l1 ++ l2) body s = (s' ← for_each l1 body s; for_each l2 body s').
Proof.
  revert s. induction l1 as [|x l1 IH]; intros s; simpl; [done|].
  destruct (body x s); simpl; auto.
Qed.

(** A relation that is reflexive and transitive and that every round of the
    body respects, is respected by the whole loop. *)
Lemma for_each_rel {A S : Type} (R : relation S) `{!PreOrder R}
  (l : list A) (body : A → S → res S) :
  (∀ x s s', x ∈ l → body x s = Ok s' → R s s') →
  ∀ s s', for_each l body s = Ok s' → R s s'.
Proof.
  induction l as [|x l IH]; intros Hbody s s' Hrun; simpl in Hrun.
  - injection Hrun as <-. reflexivity.
  - destruct (body x s) as [s1| |] eqn:Hx; simpl in Hrun; try discriminate.
    transitivity s1.
    + eapply Hbody; [left|done].
    + apply IH; [|done]. intros y t t' Hy. apply Hbody. by right.
Qed.

Lemma for_each_inv {A S : Type} (P : S → Prop) (l : list A)
  (body : A → S → res S) :
  (∀ x s s', x ∈ l → P s → body x s = Ok s' → P s') →
  ∀ s s', P s → for_each l body s = Ok s' → P s'.
Proof.
  induction l as [|x l IH]; intros Hbody s s' Hs Hrun; simpl in Hrun.
  - by injection Hrun as <-.
  - destruct (body x s) as [s1| |] eqn:Hx; simpl in Hrun; try discriminate.
    eapply IH; [| |exact Hrun].
    + intros y t t' Hy. apply Hbody. by right.
    + eapply Hbody; [left|exact Hs|exact Hx].
Qed.

(** A loop whose body always answers on the states of [P] answers too. *)
Lemma for_each_total {A S : Type} (P : S → Prop) (l : list A)
  (body : A → S → res S) :
  (∀ x s, x ∈ l → P s → ∃ s', body x s = Ok s' ∧ P s') →
  ∀ s, P s → ∃ s', for_each l body s = Ok s' ∧ P s'.
Proof.
  induction l as [|x l IH]; intros Hbody s Hs; simpl.
  - by exists s.
  - destruct (Hbody x s) as (s1 & -> & Hs1); [left|done|]. simpl.
    apply IH; [|done]. intros y t Hy. apply Hbody. by right.
Qed.

Lemma for_each_fuel {A S : Type} (l : list A) (body : A → S → res S) :
  (∀ x s, body x s ≠ OutOfFuel) → ∀ s, for_each l body s ≠ OutOfFuel.
Proof.
  intros Hbody. induction l as [|x l IH]; intros s; simpl; [done|].
  destruct (body x s) eqn:Hx; simpl; [apply IH|done|by apply Hbody in Hx].
Qed.

Lemma bind_fuel {A B : Type} (r : res A) (k : A → res B) :
  r ≠ OutOfFuel → (∀ a, r = Ok a → k a ≠ OutOfFuel) → r ≫= k ≠ OutOfFuel.
Proof. destruct r; simpl; auto. Qed.

Lemma bind_Ok {A B : Type} (r : res A) (k : A → res B) b :
  r ≫= k = Ok b ↔ ∃ a, r = Ok a ∧ k a = Ok b.
Proof.
  destruct r as [a| |]; simpl; split; try done.
  - intros Hk. by exists a.
  - by intros (a' & [= <-] & Hk).
  - by intros (a & [=] & _).
  - by intros (a & [=] & _).
Qed.

Lemma getitem_fuel `{Countable K} {V : Type} (d : gmap K V) k :
  getitem d k ≠ OutOfFuel.
Proof. unfold getitem. by destruct (d !! k). Qed.

Lemma getitem_Ok `{Countable K} {V : Type} (d : gmap K V) k v :
  getitem d k = Ok v ↔ d !! k = Some v.
Proof. unfold getitem. destruct (d !! k); split; congruence. Qed.

Lemma grammar_getitem_fuel g nt : grammar_getitem g nt ≠ OutOfFuel.
Proof. unfold grammar_getitem. by destruct (grammar_get g nt). Qed.

Lemma grammar_getitem_Ok g nt ps :
  grammar_getitem g nt = Ok ps ↔ grammar_get g nt = Some ps.
Proof. unfold grammar_getitem. destruct (grammar_get g nt); split; congruence. Qed.

(** ** Ingestion *)

Lemma read_line_not_rule st raw :
  is_rule_line raw = false → (read_line st raw).1 = st.1.
Proof.
  unfold is_rule_line, read_line. destruct st as [self out]. cbv zeta.
  destruct (Str.is_empty (Str.strip raw)); [done|].
  destruct (Str.startswith "#" (Str.strip raw)); [done|].
  cbn [negb andb orb]. by intros ->.
Qed.

Lemma read_lines_no_rule lines st :
  Forall (fun raw => is_rule_line raw = false) lines →
  (foldl read_line st lines).1 = st.1.
Proof.
  intros Hall. revert st.
  induction Hall as [|raw lines Hraw _ IH]; intros st; simpl; [done|].
  rewrite IH. by apply read_line_not_rule.
Qed.

(** C6. When the file holds no production rule (every line is blank, a
    comment, or lacks the separator), [read_grammar] on a parser without
    rules fails: it returns [False], leaves the grammar empty and the start
    symbol as it was, and ends its output with the message that no
    production rules were found. *)
Theorem read_grammar_no_rules (self : LL1Parser) (lines : list string) :
  grammar self = [] →
  Forall (fun raw => is_rule_line raw = false) lines →
  ∃ out,
    read_grammar self (Some lines)
    = (false, self, out ++ ["Error: No production rules found!"]).
Proof.
  intros Hempty Hall. unfold read_grammar.
  pose proof (read_lines_no_rule lines (self, []) Hall) as Hsame.
  destruct (foldl read_line (self, []) lines) as [self1 out].
  simpl in Hsame. subst self1. rewrite Hempty. by exists out.
Qed.

Lemma read_grammar_no_rules_witness :
  ∃ out,
    read_grammar init (Some ["# only a comment"; "   "; "S a b"])
    = (false, init, out ++ ["Error: No production rules found!"]).
Proof.
  apply (read_grammar_no_rules init ["# only a comment"; "   "; "S a b"]).
  - reflexivity.
  - repeat constructor.
Defined.

(** ** FIRST of a sequence *)

Lemma first_scan_spec terms fs n i seq acc :
  i + length seq = n →
  first_scan terms fs n i seq acc
  = acc ∪ first_of_sequence terms fs seq.
Proof.
  revert i acc. induction seq as [|symbol rest IH]; intros i acc Hlen; simpl.
  - set_solver.
  - destruct (decide (symbol = EPS)); [done|].
    destruct (decide (symbol ∈ terms)); [done|].
    destruct (decide (EPS ∈ default ∅ (fs !! symbol))) as [Hnull|Hnon].
    + rewrite IH by (simpl in Hlen; lia).
      destruct rest as [|symbol' rest'].
      * simpl in *. destruct (decide (i = n - 1)); [set_solver|lia].
      * simpl in Hlen. destruct (decide (i = n - 1)); [lia|].
        by rewrite (assoc_L (∪)).
    + set_solver.
Qed.

(** The indexed loop with its [break]s computes the recursive rule. *)
Lemma compute_first_for_sequence_eq terms fs sequence :
  compute_first_for_sequence terms fs sequence
  = first_of_sequence terms fs sequence.
Proof.
  unfold compute_first_for_sequence. destruct sequence as [|symbol rest].
  - done.
  - rewrite first_scan_spec by done. by rewrite (left_id_L ∅ (∪)).
Qed.

(** C5. [_compute_first_for_sequence] returns exactly the set the
    left-to-right rule describes: nothing for the empty sequence, the empty
    marker or the terminal where the scan stops on one, and for a
    non-terminal its FIRST set without the empty marker, followed by the rest
    of the scan only when it is nullable, with the empty marker when it is
    nullable and last. *)
Theorem compute_first_for_sequence_spec terms fs sequence :
  compute_first_for_sequence terms fs sequence
  = first_of_sequence terms fs sequence.
Proof. apply compute_first_for_sequence_eq. Qed.

(** ** The parser machine *)


Lemma parse_loop_unfold fuel terms table input m :
  parse_loop (S fuel) terms table input m
  = match stack m with
    | [] => Ok m
    | top :: below =>
        r ← parse_iter terms table input m top below;
        match r with
        | Continue m' => parse_loop fuel terms table input m'
        | Break m' => Ok m'
        end
    end.
Proof. reflexivity. Qed.




(** *** The input pointer stays inside the input *)

Lemma parse_iter_pointer terms table tokens m top below m1 :
  pointer m ≤ length tokens →
  parse_iter terms table (end_marked tokens) m top below = Ok (Continue m1) →
  pointer m1 ≤ length tokens.
Proof.
  intros Hptr. unfold parse_iter.
  destruct (end_marked tokens !! pointer m) as [cur|] eqn:Hcur; [|done].
  destruct (decide (top = EOI ∧ cur = EOI)) as [|Hnot]; [done|].
  destruct (decide (top ∈ terms)).
  - destruct (decide (top = cur)) as [<-|]; [|done].
    intros [= <-]. simpl.
    destruct (decide (pointer m = length tokens)) as [Heq|]; [|lia].
    exfalso. apply Hnot. unfold end_marked in Hcur.
    rewrite Heq, lookup_app_r, Nat.sub_diag in Hcur by done.
    by injection Hcur as <-.
  - destruct (default None (table !! (top, cur))); [|done].
    by intros [= <-].
Qed.

Lemma end_marked_lookup tokens i :
  i ≤ length tokens → is_Some (end_marked tokens !! i).
Proof.
  intros Hi. apply lookup_lt_is_Some. unfold end_marked.
  rewrite length_app. simpl. lia.
Qed.

Lemma reaches_pointer terms table tokens m m' :
  reaches terms table (end_marked tokens) m m' →
  pointer m ≤ length tokens → pointer m' ≤ length tokens.
Proof.
  induction 1 as [|m top below m1 m2 _ Hiter _ IH]; [done|].
  intros Hptr. apply IH. by eapply parse_iter_pointer.
Qed.

Lemma parse_loop_in_bounds fuel terms table tokens m :
  pointer m ≤ length tokens →
  parse_loop fuel terms table (end_marked tokens) m ≠ Raise IndexError.
Proof.
  revert m. induction fuel as [|fuel IH]; intros m Hptr; [done|].
  rewrite parse_loop_unfold. destruct (stack m) as [|top below]; [done|].
  destruct (parse_iter terms table (end_marked tokens) m top below)
    as [[m1|m1]| |] eqn:Hiter; simpl; try done.
  - apply IH. by eapply parse_iter_pointer.
  - unfold parse_iter in Hiter.
    destruct (end_marked_lookup tokens (pointer m) Hptr) as [cur Hcur].
    rewrite Hcur in Hiter. intros [= ->]. repeat case_decide; try done.
    by destruct (default None (table !! (top, cur))).
Qed.

(** C10. In every state the loop of [parse_input] passes through, the
    pointer is at most the index of the appended end marker, so
    [input_string[pointer]] is there to be read; no run of the loop, however
    long, raises [IndexError]. *)
Theorem parse_input_in_bounds terms table start tokens :
  (∀ m,
     reaches terms table (end_marked tokens) (initial start) m →
     pointer m ≤ length tokens ∧
     is_Some (end_marked tokens !! pointer m)) ∧
  (∀ fuel, parse fuel terms table start tokens ≠ Raise IndexError).
Proof.
  split.
  - intros m Hreach.
    assert (pointer m ≤ length tokens) as Hptr.
    { eapply reaches_pointer; [exact Hreach|]. simpl. lia. }
    split; [done|]. by apply end_marked_lookup.
  - intros fuel. apply parse_loop_in_bounds. simpl. lia.
Qed.

(** ** Growth of the dict in the fixed-point loops *)

Section GrowthFacts.

Variable nts : list string.

Implicit Types (fs : gmap string (gset string)) (k : string).
Implicit Types (cur v U allowed : gset string).
Implicit Types (st : gmap string (gset string) * bool).

Lemma weight_insert_le (l : list string) fs k cur v :
  fs !! k = Some cur → cur ⊆ v →
  sum_list ((fun nt => size (default ∅ (fs !! nt))) <$> l)
  ≤ sum_list ((fun nt => size (default ∅ (<[k := v]> fs !! nt))) <$> l).
Proof.
  intros Hk Hsub. induction l as [|nt l IH]; csimpl; [done|].
  destruct (decide (k = nt)) as [<-|Hne].
  - rewrite lookup_insert_eq, Hk. csimpl.
    pose proof (subseteq_size _ _ Hsub). lia.
  - rewrite lookup_insert_ne by done. lia.
Qed.

Lemma weight_insert_lt fs k cur v :
  k ∈ nts → fs !! k = Some cur → cur ⊂ v →
  weight nts fs < weight nts (<[k := v]> fs).
Proof.
  unfold weight. intros Hin Hk Hsub.
  induction nts as [|nt l IH]; [by apply elem_of_nil in Hin|]. csimpl.
  destruct (decide (k = nt)) as [<-|Hne].
  - rewrite lookup_insert_eq, Hk. csimpl.
    pose proof (subset_size _ _ Hsub).
    pose proof (weight_insert_le l fs k cur v Hk (proj1 Hsub)). lia.
  - rewrite lookup_insert_ne by done.
    apply elem_of_cons in Hin as [?|Hin]; [done|].
    specialize (IH Hin). lia.
Qed.

Lemma weight_bound U fs :
  bounded U fs → weight nts fs ≤ length nts * size U.
Proof.
  unfold weight. intros Hb. induction nts as [|nt l IH]; csimpl; [lia|].
  assert (size (default ∅ (fs !! nt)) ≤ size U).
  { apply subseteq_size. destruct (fs !! nt) as [v|] eqn:Hv; simpl.
    - by eapply Hb.
    - set_solver. }
  lia.
Qed.

Lemma grow_weight allowed st st' :
  grow nts allowed st st' →
  st'.2 = true ∧ weight nts st.1 < weight nts st'.1.
Proof.
  destruct 1 as [fs changed k cur extra Hin Hk Hnew _]. simpl.
  split; [done|]. eapply weight_insert_lt; [done..|]. set_solver.
Qed.

Lemma grow_bounded allowed U st st' :
  allowed ⊆ U → grow nts allowed st st' →
  bounded U st.1 → bounded U st'.1.
Proof.
  intros Hsub. destruct 1 as [fs changed k cur extra Hin Hk _ Hextra].
  simpl. intros Hb k' v. destruct (decide (k = k')) as [<-|Hne].
  - rewrite lookup_insert_eq. intros [= <-].
    apply union_subseteq. split; [by eapply Hb|].
    intros x Hx. destruct (Hextra x Hx) as [?|(k' & v' & Hv' & Hxv')].
    + by apply Hsub.
    + by eapply Hb.
  - rewrite lookup_insert_ne by done. apply Hb.
Qed.

Lemma grow_keys allowed st st' k :
  grow nts allowed st st' → is_Some (st.1 !! k) → is_Some (st'.1 !! k).
Proof.
  destruct 1 as [fs changed k0 cur extra _ Hk _ _]. simpl.
  intros Hsome. destruct (decide (k0 = k)) as [<-|Hne].
  - by rewrite lookup_insert_eq.
  - by rewrite lookup_insert_ne.
Qed.

Lemma grow_mono allowed st st' k v :
  grow nts allowed st st' → st.1 !! k = Some v →
  ∃ v', st'.1 !! k = Some v' ∧ v ⊆ v'.
Proof.
  destruct 1 as [fs changed k0 cur extra _ Hk _ _]. simpl. intros Hv.
  destruct (decide (k0 = k)) as [<-|Hne].
  - rewrite lookup_insert_eq. exists (cur ∪ extra).
    split; [done|]. set_solver.
  - rewrite lookup_insert_ne by done. by exists v.
Qed.

(** Over several writes. *)
Lemma grows_weight allowed st st' :
  rtc (grow nts allowed) st st' →
  st' = st ∨ (st'.2 = true ∧ weight nts st.1 < weight nts st'.1).
Proof.
  induction 1 as [st|st st1 st' Hstep _ IH]; [by left|]. right.
  apply grow_weight in Hstep as [Hflag Hlt].
  destruct IH as [->|[Hflag' Hlt']]; [done|]. split; [done|lia].
Qed.

Lemma grows_bounded allowed U st st' :
  allowed ⊆ U → rtc (grow nts allowed) st st' →
  bounded U st.1 → bounded U st'.1.
Proof.
  intros Hsub. induction 1 as [st|st st1 st' Hstep _ IH]; [done|].
  intros Hb. apply IH. by eapply grow_bounded.
Qed.

Lemma grows_keys allowed st st' k :
  rtc (grow nts allowed) st st' →
  is_Some (st.1 !! k) → is_Some (st'.1 !! k).
Proof.
  induction 1 as [st|st st1 st' Hstep _ IH]; [done|].
  intros Hsome. apply IH. by eapply grow_keys.
Qed.

Lemma grows_mono allowed st st' k v :
  rtc (grow nts allowed) st st' → st.1 !! k = Some v →
  ∃ v', st'.1 !! k = Some v' ∧ v ⊆ v'.
Proof.
  intros Hrun. revert v.
  induction Hrun as [st|st st1 st' Hstep _ IH]; intros v Hv.
  - by exists v.
  - destruct (grow_mono _ _ _ _ _ Hstep Hv) as (v1 & Hv1 & Hsub).
    destruct (IH _ Hv1) as (v' & Hv' & Hsub').
    exists v'. split; [done|]. set_solver.
Qed.

Lemma grow_allowed_mono allowed allowed' st st' :
  allowed ⊆ allowed' → grow nts allowed st st' → grow nts allowed' st st'.
Proof.
  intros Hsub. destruct 1 as [fs changed k cur extra Hin Hk Hnew Hextra].
  constructor; [done..|]. intros x Hx.
  destruct (Hextra x Hx) as [?|?]; [left; by apply Hsub|by right].
Qed.

End GrowthFacts.

Lemma empty_sets_lookup nts k v : empty_sets nts !! k = Some v → v = ∅.
Proof.
  unfold empty_sets. intros Hv. apply elem_of_list_to_map_2 in Hv.
  apply list_elem_of_fmap in Hv as (nt & [= _ ->] & _). done.
Qed.

Lemma empty_sets_is_Some nts k : k ∈ nts → is_Some (empty_sets nts !! k).
Proof.
  unfold empty_sets. intros Hin.
  destruct (list_to_map _ !! k) as [v|] eqn:Hv; [by exists v|].
  apply not_elem_of_list_to_map_2 in Hv. exfalso. apply Hv.
  rewrite <- list_fmap_compose. apply list_elem_of_fmap. by exists k.
Qed.

Lemma size_list_to_set_le (l : list string) :
  size (list_to_set l : gset string) ≤ length l.
Proof.
  induction l as [|x l IH].
  - done.
  - rewrite list_to_set_cons, size_union_alt, size_singleton.
    assert (size (list_to_set l ∖ {[x]} : gset string)
            ≤ size (list_to_set l : gset string))
      by (apply subseteq_size; set_solver).
    simpl. lia.
Qed.

Section WhileChanged.

Variables (nts : list string) (allowed U : gset string).
Variable pass : gmap string (gset string)
                → res (gmap string (gset string) * bool).

Hypothesis allowed_U : allowed ⊆ U.
Hypothesis pass_grows :
  ∀ d st, pass d = Ok st → rtc (grow nts allowed) (d, false) st.
Hypothesis pass_fuel : ∀ d, pass d ≠ OutOfFuel.

(** Every round that sets the flag makes the weight larger, and the weight
    cannot pass [length nts * size U]. *)
Lemma while_changed_enough fuel d :
  bounded U d →
  length nts * size U - weight nts d < fuel →
  while_changed fuel pass d ≠ OutOfFuel.
Proof.
  revert d. induction fuel as [|fuel IH]; intros d Hb Hfuel; [lia|].
  simpl. destruct (pass d) as [[d' changed]| |] eqn:Hpass; simpl;
    [|done|by apply pass_fuel in Hpass].
  destruct changed; [|done].
  pose proof (pass_grows _ _ Hpass) as Hrun.
  pose proof (grows_bounded nts allowed U _ _ allowed_U Hrun Hb) as Hb'.
  apply grows_weight in Hrun as [[= _]|[_ Hlt]]. simpl in *.
  apply IH; [done|]. pose proof (weight_bound nts U d' Hb'). lia.
Qed.

Lemma while_changed_stable fuel fuel' d :
  while_changed fuel pass d ≠ OutOfFuel → fuel ≤ fuel' →
  while_changed fuel' pass d = while_changed fuel pass d.
Proof.
  revert fuel' d. induction fuel as [|fuel IH]; intros fuel' d; [done|].
  destruct fuel' as [|fuel']; [lia|]. simpl.
  destruct (pass d) as [[d' changed]| |]; simpl; try done.
  destruct changed; [|done]. intros Hrun Hle. apply IH; [done|lia].
Qed.

Lemma while_changed_inv (P : gmap string (gset string) → Prop) fuel d d' :
  (∀ d st, P d → pass d = Ok st → P st.1) →
  P d → while_changed fuel pass d = Ok d' → P d'.
Proof.
  intros Hpass. revert d. induction fuel as [|fuel IH]; intros d Hd; [done|].
  simpl. destruct (pass d) as [[d1 changed]| |] eqn:Hd1; simpl; try done.
  specialize (Hpass _ _ Hd Hd1). destruct changed.
  - by apply IH.
  - by intros [= <-].
Qed.

(** The dict the loop ends with is one a further round leaves as it is. *)
Lemma while_changed_fixed fuel d d' :
  while_changed fuel pass d = Ok d' → pass d' = Ok (d', false).
Proof.
  revert d. induction fuel as [|fuel IH]; intros d; [done|].
  simpl. destruct (pass d) as [[d1 changed]| |] eqn:Hd1; simpl; try done.
  destruct changed; [apply IH|]. intros [= <-].
  pose proof (grows_weight _ _ _ _ (pass_grows _ _ Hd1)) as Hrun.
  destruct Hrun as [[= ->]|[[=] _]]. done.
Qed.

End WhileChanged.

Lemma while_changed_no_raise {D : Type} (Q : D → Prop)
  (pass : D → res (D * bool)) :
  (∀ d, Q d → ∃ st, pass d = Ok st ∧ Q st.1) →
  ∀ fuel d e, Q d → while_changed fuel pass d ≠ Raise e.
Proof.
  intros Hpass fuel. induction fuel as [|fuel IH]; intros d e Hd; [done|].
  simpl. destruct (Hpass d Hd) as ([d1 changed] & -> & Hd1). simpl.
  destruct changed; [by apply IH|done].
Qed.

(** ** The FIRST sets *)

Lemma first_of_sequence_elem terms (fs : gmap string (gset string)) seq x :
  x ∈ first_of_sequence terms fs seq →
  x = EPS ∨ x ∈ terms ∨ ∃ k v, fs !! k = Some v ∧ x ∈ v.
Proof.
  induction seq as [|symbol rest IH]; simpl; [set_solver|].
  destruct (decide (symbol = EPS)); [set_solver|].
  destruct (decide (symbol ∈ terms)); [set_solver|].
  assert (∀ y, y ∈ default ∅ (fs !! symbol) →
               ∃ k v, fs !! k = Some v ∧ y ∈ v) as Hval.
  { intros y. destruct (fs !! symbol) as [v|] eqn:Hv; simpl; [|set_solver].
    intros Hy. by exists symbol, v. }
  intros [Hx|Hx]%elem_of_union.
  - right. right. apply Hval. set_solver.
  - destruct (decide (EPS ∈ default ∅ (fs !! symbol))); [|set_solver].
    destruct rest; [set_solver|]. by apply IH.
Qed.

Lemma first_step_grows nts terms nt p st st' :
  nt ∈ nts →
  first_step terms nt p st = Ok st' →
  rtc (grow nts (list_to_set terms ∪ {[EPS]})) st st'.
Proof.
  intros Hnt. unfold first_step. destruct st as [fs changed]. simpl.
  destruct (getitem fs nt) as [cur| |] eqn:Hcur; simpl; try done.
  apply getitem_Ok in Hcur.
  destruct (decide (compute_first_for_sequence terms fs p ⊆ cur)).
  - by intros [= <-].
  - intros [= <-]. apply rtc_once. constructor; [done..|].
    intros x Hx. rewrite compute_first_for_sequence_eq in Hx.
    apply first_of_sequence_elem in Hx. set_solver.
Qed.

Lemma first_step_fuel terms nt p st : first_step terms nt p st ≠ OutOfFuel.
Proof.
  unfold first_step. destruct (getitem st.1 nt) eqn:Hcur; simpl; try done.
  - by case_decide.
  - by apply getitem_fuel in Hcur.
Qed.

Lemma first_pass_grows self fs st :
  first_pass self fs = Ok st →
  rtc (grow (non_terminals self) (first_universe self)) (fs, false) st.
Proof.
  unfold first_pass. apply for_each_rel; [apply _|].
  intros nt s s' Hnt.
  destruct (grammar_getitem (grammar self) nt) as [prods| |]; simpl; try done.
  apply for_each_rel; [apply _|].
  intros p t t' _. by apply first_step_grows.
Qed.

Lemma first_pass_fuel self fs : first_pass self fs ≠ OutOfFuel.
Proof.
  unfold first_pass. apply for_each_fuel. intros nt s.
  destruct (grammar_getitem (grammar self) nt) eqn:Hg; simpl; try done.
  - apply for_each_fuel. intros p t. apply first_step_fuel.
  - by apply grammar_getitem_fuel in Hg.
Qed.

Lemma empty_sets_bounded nts U : bounded U (empty_sets nts).
Proof. intros k v Hv. apply empty_sets_lookup in Hv as ->. set_solver. Qed.

Lemma first_universe_size self :
  size (first_universe self) ≤ S (length (terminals self)).
Proof.
  unfold first_universe. rewrite size_union_alt.
  pose proof (size_list_to_set_le (terminals self)).
  assert (size ({[EPS]} ∖ list_to_set (terminals self) : gset string)
          ≤ size ({[EPS]} : gset string))
    by (apply subseteq_size; set_solver).
  rewrite size_singleton in *. lia.
Qed.

(** The rounds [first_fuel] grants are enough, and more change nothing. *)
Lemma first_loop_terminates self fuel :
  first_fuel self ≤ fuel →
  first_loop fuel self (empty_sets (non_terminals self))
  = first_loop (first_fuel self) self (empty_sets (non_terminals self))
  ∧ first_loop fuel self (empty_sets (non_terminals self)) ≠ OutOfFuel.
Proof.
  intros Hfuel. unfold first_loop.
  assert (while_changed (first_fuel self) (first_pass self)
            (empty_sets (non_terminals self)) ≠ OutOfFuel) as Hrun.
  { eapply (while_changed_enough (non_terminals self)
              (first_universe self) (first_universe self)).
    - done.
    - apply first_pass_grows.
    - apply first_pass_fuel.
    - apply empty_sets_bounded.
    - unfold first_fuel. pose proof (first_universe_size self).
      assert (length (non_terminals self) * size (first_universe self)
              ≤ length (non_terminals self) * S (length (terminals self)))
        by (apply Nat.mul_le_mono_l; lia).
      lia. }
  rewrite (while_changed_stable _ (first_fuel self) fuel) by done. done.
Qed.

Lemma first_step_total (nts : list string) terms nt p st :
  nt ∈ nts →
  (∀ k, k ∈ nts → is_Some (st.1 !! k)) →
  ∃ st', first_step terms nt p st = Ok st'
         ∧ ∀ k, k ∈ nts → is_Some (st'.1 !! k).
Proof.
  intros Hnt Hkeys. unfold first_step.
  destruct (Hkeys nt Hnt) as [cur Hcur].
  apply getitem_Ok in Hcur as ->. simpl. case_decide.
  - by exists st.
  - eexists. split; [done|]. simpl. intros k Hk.
    destruct (decide (nt = k)) as [<-|].
    + by rewrite lookup_insert_eq.
    + rewrite lookup_insert_ne by done. by apply Hkeys.
Qed.

Lemma first_pass_total self fs :
  keyed self →
  (∀ k, k ∈ non_terminals self → is_Some (fs !! k)) →
  ∃ st, first_pass self fs = Ok st
        ∧ ∀ k, k ∈ non_terminals self → is_Some (st.1 !! k).
Proof.
  intros Hkeyed Hkeys. unfold first_pass.
  apply (for_each_total
           (fun st => ∀ k, k ∈ non_terminals self → is_Some (st.1 !! k)));
    [|done].
  intros nt s Hnt Hs.
  unfold keyed in Hkeyed. rewrite Forall_forall in Hkeyed.
  destruct (Hkeyed nt Hnt) as [prods Hprods].
  apply grammar_getitem_Ok in Hprods as ->. simpl.
  apply (for_each_total
           (fun st => ∀ k, k ∈ non_terminals self → is_Some (st.1 !! k)));
    [|done].
  intros p t _ Ht. by apply first_step_total.
Qed.

Lemma compute_first_sets_total self :
  keyed self → ∃ self1, compute_first_sets self = Ok self1.
Proof.
  intros Hkeyed. unfold compute_first_sets.
  destruct (first_loop_terminates self (first_fuel self)) as [_ Hfuel]; [done|].
  unfold first_loop in *.
  destruct (while_changed _ _ _) as [fs|e|] eqn:Hrun; [by eexists| |done].
  exfalso. revert Hrun.
  apply (while_changed_no_raise
           (fun fs => ∀ k, k ∈ non_terminals self → is_Some (fs !! k))).
  - intros d Hd. by apply first_pass_total.
  - intros k. apply empty_sets_is_Some.
Qed.

(** ** The FOLLOW sets *)

Lemma first_symbols_elem self k v x :
  first_sets self !! k = Some v → x ∈ v → x ∈ first_symbols self.
Proof.
  intros Hv Hx. unfold first_symbols. apply elem_of_union_list.
  exists v. split; [|done]. apply list_elem_of_fmap. exists (k, v).
  split; [done|]. by apply elem_of_map_to_list.
Qed.

Lemma follow_symbol_grows self allowed nt n i symbol rem st st' :
  (∀ seq,
     compute_first_for_sequence (terminals self) (first_sets self) seq
     ∖ {[EPS]} ⊆ allowed) →
  follow_symbol self nt n i symbol rem st = Ok st' →
  rtc (grow (non_terminals self) allowed) st st'.
Proof.
  intros Hallowed. unfold follow_symbol. destruct st as [fol changed].
  destruct (decide (symbol ∈ non_terminals self)) as [Hsym|];
    [|by intros [= <-]].
  simpl. destruct (getitem fol symbol) as [cur| |] eqn:Hcur; simpl; try done.
  apply getitem_Ok in Hcur.
  set (first_remainder :=
         compute_first_for_sequence (terminals self) (first_sets self) rem).
  set (st1 := if decide (first_remainder ∖ {[EPS]} ⊆ cur) then (fol, changed)
              else (<[symbol := cur ∪ first_remainder ∖ {[EPS]}]> fol, true)).
  assert (rtc (grow (non_terminals self) allowed) (fol, changed) st1) as Hst1.
  { unfold st1. case_decide; [done|]. apply rtc_once.
    constructor; [done..|]. intros x Hx. left. by eapply Hallowed. }
  destruct (decide (EPS ∈ first_remainder ∨ i = n - 1));
    [|by intros [= <-]].
  destruct (getitem st1.1 nt) as [of_head| |] eqn:Hhead; simpl; try done.
  destruct (getitem st1.1 symbol) as [of_symbol| |] eqn:Hof; simpl; try done.
  apply getitem_Ok in Hhead, Hof.
  case_decide; intros [= <-]; [done|].
  eapply rtc_r; [exact Hst1|]. destruct st1 as [fol1 changed1].
  constructor; [done..|]. intros x Hx. right. by exists nt, of_head.
Qed.

Lemma follow_scan_grows self allowed nt n i seq st st' :
  (∀ seq,
     compute_first_for_sequence (terminals self) (first_sets self) seq
     ∖ {[EPS]} ⊆ allowed) →
  follow_scan self nt n i seq st = Ok st' →
  rtc (grow (non_terminals self) allowed) st st'.
Proof.
  intros Hallowed. revert i st.
  induction seq as [|symbol rem IH]; intros i st; simpl.
  - by intros [= <-].
  - destruct (follow_symbol self nt n i symbol rem st) as [st1| |] eqn:Hsym;
      simpl; try done.
    intros Hrest. etrans; [by eapply follow_symbol_grows|by eapply IH].
Qed.

Lemma follow_pass_grows self allowed fol st :
  (∀ seq,
     compute_first_for_sequence (terminals self) (first_sets self) seq
     ∖ {[EPS]} ⊆ allowed) →
  follow_pass self fol = Ok st →
  rtc (grow (non_terminals self) allowed) (fol, false) st.
Proof.
  intros Hallowed. unfold follow_pass. apply for_each_rel; [apply _|].
  intros nt s s' Hnt.
  destruct (grammar_getitem (grammar self) nt) as [prods| |]; simpl; try done.
  apply for_each_rel; [apply _|].
  intros p t t' _. by apply follow_scan_grows.
Qed.

Lemma follow_symbol_fuel self nt n i symbol rem st :
  follow_symbol self nt n i symbol rem st ≠ OutOfFuel.
Proof.
  unfold follow_symbol.
  destruct (decide (symbol ∈ non_terminals self)); [|done].
  apply bind_fuel; [apply getitem_fuel|]. intros cur _.
  destruct (decide (EPS ∈ _ ∨ i = n - 1)); [|done].
  apply bind_fuel; [apply getitem_fuel|]. intros of_head _.
  apply bind_fuel; [apply getitem_fuel|]. intros of_symbol _.
  by destruct (decide (of_head ⊆ of_symbol)).
Qed.

Lemma follow_scan_fuel self nt n i seq st :
  follow_scan self nt n i seq st ≠ OutOfFuel.
Proof.
  revert i st. induction seq as [|symbol rem IH]; intros i st; simpl; [done|].
  destruct (follow_symbol self nt n i symbol rem st) eqn:Hsym; simpl;
    [apply IH|done|by apply follow_symbol_fuel in Hsym].
Qed.

Lemma follow_pass_fuel self fol : follow_pass self fol ≠ OutOfFuel.
Proof.
  unfold follow_pass. apply for_each_fuel. intros nt s.
  destruct (grammar_getitem (grammar self) nt) eqn:Hg; simpl; try done.
  - apply for_each_fuel. intros p t. apply follow_scan_fuel.
  - by apply grammar_getitem_fuel in Hg.
Qed.

Lemma first_remainder_universe self seq :
  compute_first_for_sequence (terminals self) (first_sets self) seq
  ∖ {[EPS]} ⊆ follow_universe self.
Proof.
  intros x [Hx Hne]%elem_of_difference.
  rewrite compute_first_for_sequence_eq in Hx.
  apply first_of_sequence_elem in Hx as [->|[Hx|(k & v & Hv & Hx)]].
  - set_solver.
  - unfold follow_universe. set_solver.
  - pose proof (first_symbols_elem self k v x Hv Hx).
    unfold follow_universe, first_symbols in *. set_solver.
Qed.

Lemma seed_follow_lookup self fol0 k v :
  seed_follow self = Ok fol0 → fol0 !! k = Some v → v ⊆ {[EOI]}.
Proof.
  unfold seed_follow. destruct (start_symbol self) as [s|]; [|done].
  destruct (getitem _ s) as [cur| |] eqn:Hcur; simpl; try done.
  apply getitem_Ok, empty_sets_lookup in Hcur as ->. intros [= <-].
  destruct (decide (s = k)) as [<-|].
  - rewrite lookup_insert_eq. intros [= <-]. set_solver.
  - rewrite lookup_insert_ne by done.
    intros ->%empty_sets_lookup. set_solver.
Qed.

(** The rounds [follow_fuel] grants are enough, and more change nothing. *)
Lemma follow_loop_terminates self fol0 fuel :
  seed_follow self = Ok fol0 →
  follow_fuel self ≤ fuel →
  follow_loop fuel self fol0 = follow_loop (follow_fuel self) self fol0
  ∧ follow_loop fuel self fol0 ≠ OutOfFuel.
Proof.
  intros Hseed Hfuel. unfold follow_loop.
  assert (while_changed (follow_fuel self) (follow_pass self) fol0
          ≠ OutOfFuel) as Hrun.
  { eapply (while_changed_enough (non_terminals self)
              (follow_universe self) (follow_universe self)).
    - done.
    - intros d st. apply follow_pass_grows, first_remainder_universe.
    - apply follow_pass_fuel.
    - intros k v Hv. pose proof (seed_follow_lookup _ _ _ _ Hseed Hv).
      unfold follow_universe. set_solver.
    - unfold follow_fuel. lia. }
  rewrite (while_changed_stable _ (follow_fuel self) fuel) by done. done.
Qed.




(** *** A run of [parse_input] that never ends *)




(** ** What the fixed points hold *)

Lemma compute_first_sets_Ok self self1 :
  compute_first_sets self = Ok self1 →
  ∃ fs,
    first_loop (first_fuel self) self (empty_sets (non_terminals self)) = Ok fs
    ∧ self1 = set_first_sets self fs.
Proof.
  unfold compute_first_sets.
  destruct (first_loop _ _ _) as [fs| |]; simpl; try done.
  intros [= <-]. by exists fs.
Qed.

Lemma compute_first_sets_bounded self self1 :
  compute_first_sets self = Ok self1 →
  bounded (first_universe self) (first_sets self1).
Proof.
  intros (fs & Hloop & ->)%compute_first_sets_Ok. simpl.
  revert Hloop. unfold first_loop.
  apply (while_changed_inv (first_pass self) (bounded (first_universe self)));
    [|apply empty_sets_bounded].
  intros d st Hd Hpass. apply first_pass_grows in Hpass.
  by apply (grows_bounded _ _ _ _ _ (reflexivity _) Hpass).
Qed.

(** C9. On a parser object whose non-terminals all have their productions,
    [compute_first_sets] returns, and run again on the object it returned
    gives that very object back: the second run starts from empty sets like
    the first and ends with the same FIRST sets, which one more pass over
    the grammar leaves unchanged. *)
Theorem compute_first_sets_idempotent (self : LL1Parser) :
  keyed self →
  ∃ self1,
    compute_first_sets self = Ok self1 ∧
    compute_first_sets self1 = Ok self1 ∧
    first_pass self1 (first_sets self1) = Ok (first_sets self1, false).
Proof.
  intros Hkeyed.
  destruct (compute_first_sets_total self Hkeyed) as [self1 Hrun].
  exists self1. split; [done|].
  destruct (compute_first_sets_Ok _ _ Hrun) as (fs & Hloop & ->).
  split.
  - unfold compute_first_sets.
    change (first_loop (first_fuel (set_first_sets self fs))
              (set_first_sets self fs)
              (empty_sets (non_terminals (set_first_sets self fs))))
      with (first_loop (first_fuel self) self
              (empty_sets (non_terminals self))).
    by rewrite Hloop.
  - change (first_pass self fs = Ok (fs, false)).
    eapply while_changed_fixed; [apply first_pass_grows|exact Hloop].
Qed.

Lemma compute_first_sets_idempotent_witness :
  ∃ self1,
    compute_first_sets ambiguous_grammar = Ok self1 ∧
    compute_first_sets self1 = Ok self1 ∧
    first_pass self1 (first_sets self1) = Ok (first_sets self1, false).
Proof.
  apply (compute_first_sets_idempotent ambiguous_grammar).
  repeat constructor. by eexists.
Defined.

Lemma EOI_not_EPS : EOI ≠ EPS.
Proof. done. Qed.

Lemma first_remainder_terminals self seq :
  bounded (first_universe self) (first_sets self) →
  compute_first_for_sequence (terminals self) (first_sets self) seq
  ∖ {[EPS]} ⊆ list_to_set (terminals self) ∖ {[EPS]}.
Proof.
  intros Hb x [Hx Hne]%elem_of_difference.
  rewrite compute_first_for_sequence_eq in Hx.
  apply elem_of_difference. split; [|done].
  apply first_of_sequence_elem in Hx as [->|[Hx|(k & v & Hv & Hx)]].
  - set_solver.
  - set_solver.
  - apply Hb in Hv. apply Hv in Hx. unfold first_universe in Hx. set_solver.
Qed.

Lemma compute_follow_sets_Ok self self2 :
  compute_follow_sets self = Ok self2 →
  ∃ fol0 fol,
    seed_follow self = Ok fol0
    ∧ follow_loop (follow_fuel self) self fol0 = Ok fol
    ∧ self2 = set_follow_sets self fol.
Proof.
  unfold compute_follow_sets.
  intros (fol0 & Hseed & (fol & Hloop & [= <-])%bind_Ok)%bind_Ok.
  by exists fol0, fol.
Qed.

(** What [compute_follow_sets] returns when the FIRST sets hold terminals
    and the empty marker only. *)
Lemma compute_follow_sets_content self self2 :
  bounded (first_universe self) (first_sets self) →
  compute_follow_sets self = Ok self2 →
  bounded ((list_to_set (terminals self) ∪ {[EOI]}) ∖ {[EPS]})
          (follow_sets self2)
  ∧ ∀ s, start_symbol self = Some s →
         ∃ v, follow_sets self2 !! s = Some v ∧ EOI ∈ v.
Proof.
  intros Hfirst (fol0 & fol & Hseed & Hloop & ->)%compute_follow_sets_Ok.
  simpl. unfold follow_loop in Hloop.
  assert (∀ d st, follow_pass self d = Ok st →
            rtc (grow (non_terminals self)
                      (list_to_set (terminals self) ∖ {[EPS]})) (d, false) st)
    as Hpass.
  { intros d st. apply follow_pass_grows. intros seq.
    by apply first_remainder_terminals. }
  split.
  - revert Hloop. apply (while_changed_inv (follow_pass self)).
    + intros d st Hd Hst. apply Hpass in Hst.
      eapply (grows_bounded _ _ _ _ _ _ Hst Hd).
    + intros k v Hv. pose proof (seed_follow_lookup _ _ _ _ Hseed Hv).
      pose proof EOI_not_EPS. set_solver.
  - intros s Hs. revert Hloop.
    apply (while_changed_inv (follow_pass self)
             (fun d => ∃ v, d !! s = Some v ∧ EOI ∈ v)).
    + intros d st (v & Hv & Hin) Hst. apply Hpass in Hst.
      destruct (grows_mono _ _ _ _ s v Hst Hv) as (v' & Hv' & Hsub).
      exists v'. split; [done|]. by apply Hsub.
    + unfold seed_follow in Hseed. rewrite Hs in Hseed.
      destruct (getitem _ s) as [cur| |]; simpl in Hseed; try done.
      injection Hseed as <-. rewrite lookup_insert_eq.
      eexists. split; [done|]. set_solver.
  Unshelve. set_solver.
Qed.

Lemma covers_insert nts (fs : gmap string (gset string)) k v :
  covers nts fs → covers nts (<[k := v]> fs).
Proof.
  intros Hcov k' Hk'. destruct (decide (k = k')) as [<-|].
  - by rewrite lookup_insert_eq.
  - rewrite lookup_insert_ne by done. by apply Hcov.
Qed.

Lemma follow_symbol_total self nt n i symbol rem st :
  nt ∈ non_terminals self →
  covers (non_terminals self) st.1 →
  ∃ st', follow_symbol self nt n i symbol rem st = Ok st'
         ∧ covers (non_terminals self) st'.1.
Proof.
  intros Hnt Hcov. unfold follow_symbol.
  destruct (decide (symbol ∈ non_terminals self)) as [Hsym|];
    [|by exists st].
  destruct (Hcov symbol Hsym) as [cur Hcur].
  rewrite (proj2 (getitem_Ok _ _ _) Hcur). simpl.
  set (first_remainder :=
         compute_first_for_sequence (terminals self) (first_sets self) rem).
  set (st1 := if decide (first_remainder ∖ {[EPS]} ⊆ cur) then st
              else (<[symbol := cur ∪ first_remainder ∖ {[EPS]}]> st.1, true)).
  assert (covers (non_terminals self) st1.1) as Hcov1.
  { unfold st1. case_decide; [done|]. by apply covers_insert. }
  destruct (decide (EPS ∈ first_remainder ∨ i = n - 1));
    [|by exists st1].
  destruct (Hcov1 nt Hnt) as [of_head Hhead].
  destruct (Hcov1 symbol Hsym) as [of_symbol Hof].
  rewrite (proj2 (getitem_Ok _ _ _) Hhead). simpl.
  rewrite (proj2 (getitem_Ok _ _ _) Hof). simpl.
  case_decide; eexists; (split; [done|]); [done|].
  by apply covers_insert.
Qed.

Lemma follow_scan_total self nt n i seq st :
  nt ∈ non_terminals self →
  covers (non_terminals self) st.1 →
  ∃ st', follow_scan self nt n i seq st = Ok st'
         ∧ covers (non_terminals self) st'.1.
Proof.
  intros Hnt. revert i st.
  induction seq as [|symbol rem IH]; intros i st Hcov; simpl.
  - by exists st.
  - destruct (follow_symbol_total self nt n i symbol rem st Hnt Hcov)
      as (st1 & -> & Hcov1).
    simpl. by apply IH.
Qed.

Lemma follow_pass_total self fol :
  keyed self →
  covers (non_terminals self) fol →
  ∃ st, follow_pass self fol = Ok st ∧ covers (non_terminals self) st.1.
Proof.
  intros Hkeyed Hcov. unfold follow_pass.
  apply (for_each_total (fun st => covers (non_terminals self) st.1));
    [|done].
  intros nt s Hnt Hs.
  unfold keyed in Hkeyed. rewrite Forall_forall in Hkeyed.
  destruct (Hkeyed nt Hnt) as [prods Hprods].
  apply grammar_getitem_Ok in Hprods as ->. simpl.
  apply (for_each_total (fun st => covers (non_terminals self) st.1));
    [|done].
  intros p t _ Ht. by apply follow_scan_total.
Qed.

Lemma compute_follow_sets_total self :
  keyed self → started self →
  ∃ self2, compute_follow_sets self = Ok self2.
Proof.
  intros Hkeyed (s & Hs & Hin).
  assert (∃ fol0, seed_follow self = Ok fol0
                  ∧ covers (non_terminals self) fol0)
    as (fol0 & Hseed & Hcov).
  { unfold seed_follow. rewrite Hs.
    destruct (empty_sets_is_Some _ _ Hin) as [cur Hcur].
    rewrite (proj2 (getitem_Ok _ _ _) Hcur). simpl.
    eexists. split; [done|]. apply covers_insert.
    intros k. apply empty_sets_is_Some. }
  unfold compute_follow_sets. rewrite Hseed. simpl.
  destruct (follow_loop_terminates self fol0 (follow_fuel self))
    as [_ Hfuel]; [done..|].
  destruct (follow_loop (follow_fuel self) self fol0) as [fol|e|] eqn:Hrun;
    [by eexists| |done].
  exfalso. revert Hrun. unfold follow_loop.
  apply (while_changed_no_raise (covers (non_terminals self))); [|done].
  intros d Hd. by apply follow_pass_total.
Qed.

(** C7. On a parser object with its start symbol among the non-terminals
    and productions for each of them, [compute_first_sets] and then
    [compute_follow_sets] return; every symbol of every FOLLOW set returned
    is a terminal or the end-of-input marker, none is the empty marker, and
    the set of the start symbol holds the end-of-input marker. *)
Theorem follow_sets_content (self : LL1Parser) :
  keyed self → started self →
  ∃ self1 self2,
    compute_first_sets self = Ok self1 ∧
    compute_follow_sets self1 = Ok self2 ∧
    (∀ nt v x,
       follow_sets self2 !! nt = Some v → x ∈ v →
       (x ∈ terminals self ∨ x = EOI) ∧ x ≠ EPS) ∧
    (∀ s, start_symbol self = Some s →
          ∃ v, follow_sets self2 !! s = Some v ∧ EOI ∈ v).
Proof.
  intros Hkeyed Hstarted.
  destruct (compute_first_sets_total self Hkeyed) as [self1 Hfirst].
  pose proof (compute_first_sets_bounded _ _ Hfirst) as Hb.
  destruct (compute_first_sets_Ok _ _ Hfirst) as (fs & _ & ->).
  destruct (compute_follow_sets_total (set_first_sets self fs))
    as [self2 Hfollow]; [done..|].
  exists (set_first_sets self fs), self2. split; [done|]. split; [done|].
  destruct (compute_follow_sets_content _ _ Hb Hfollow) as [Hin Hstart].
  split; [|exact Hstart].
  intros nt v x Hv Hx. apply Hin in Hv. apply Hv in Hx. simpl in Hx.
  set_solver.
Qed.

Lemma follow_sets_content_witness :
  ∃ self1 self2,
    compute_first_sets expression_grammar = Ok self1 ∧
    compute_follow_sets self1 = Ok self2 ∧
    (∀ nt v x,
       follow_sets self2 !! nt = Some v → x ∈ v →
       (x ∈ terminals expression_grammar ∨ x = EOI) ∧ x ≠ EPS) ∧
    (∀ s, start_symbol expression_grammar = Some s →
          ∃ v, follow_sets self2 !! s = Some v ∧ EOI ∈ v).
Proof.
  apply (follow_sets_content expression_grammar).
  - repeat constructor; by eexists.
  - exists "E". split; [reflexivity|]. vm_compute. repeat constructor.
Defined.

(** ** The parse table *)

Lemma for_each_bind {A B S : Type} (l : list A) (f : A → list B)
  (body : B → S → res S) s :
  for_each (l ≫= f) body s
  = for_each l (fun x s => for_each (f x) body s) s.
Proof.
  revert s. induction l as [|x l IH]; intros s; [done|].
  rewrite bind_cons, for_each_app. simpl.
  destruct (for_each (f x) body s); simpl; auto.
Qed.

Lemma for_each_fmap {A B S : Type} (l : list A) (f : A → B)
  (body : B → S → res S) s :
  for_each (f <$> l) body s = for_each l (fun x => body (f x)) s.
Proof.
  revert s. induction l as [|x l IH]; intros s; csimpl; [done|].
  destruct (body (f x) s); simpl; auto.
Qed.

Lemma for_each_filter {A S : Type} (P : A → Prop) `{∀ x, Decision (P x)}
  (l : list A) (body : A → S → res S) s :
  for_each l (fun x s => if decide (P x) then body x s else Ok s) s
  = for_each (filter P l) body s.
Proof.
  revert s. induction l as [|x l IH]; intros s; [done|].
  rewrite filter_cons. simpl. destruct (decide (P x)); simpl.
  - destruct (body x s); simpl; auto.
  - apply IH.
Qed.

Lemma for_each_Ok_ext {A S : Type} (l : list A) (body body' : A → S → res S) :
  (∀ x s s', x ∈ l → body x s = Ok s' → body' x s = Ok s') →
  ∀ s s', for_each l body s = Ok s' → for_each l body' s = Ok s'.
Proof.
  induction l as [|x l IH]; intros Hbody s s'; simpl; [done|].
  intros (s1 & Hx & Hrest)%bind_Ok.
  rewrite (Hbody x s s1) by (done || left). simpl.
  apply IH; [|done]. intros y t t' Hy. apply Hbody. by right.
Qed.

Lemma fill_production_assign self nt p st st' :
  fill_production self nt p st = Ok st' →
  for_each (targets self nt p) (assign_cell nt p) st = Ok st'.
Proof.
  unfold fill_production, targets. fold (first_alpha self p).
  rewrite for_each_app, for_each_filter.
  intros (st1 & -> & Hrest)%bind_Ok. simpl.
  destruct (decide (EPS ∈ first_alpha self p)); [|done].
  apply bind_Ok in Hrest as (fol & Hfol%getitem_Ok & Hrest).
  by rewrite Hfol.
Qed.

Lemma fill_table_assign self st st' :
  fill_table self st = Ok st' →
  for_each (assignments self) assign st = Ok st'.
Proof.
  unfold fill_table, assignments. rewrite for_each_bind.
  apply for_each_Ok_ext. intros nt s s' _.
  intros (prods & Hprods%grammar_getitem_Ok & Hrun)%bind_Ok.
  unfold non_terminal_stores. rewrite Hprods. simpl. rewrite for_each_bind.
  revert Hrun. apply for_each_Ok_ext. intros p t t' _ Hfill.
  unfold production_stores. rewrite for_each_fmap.
  by apply fill_production_assign.
Qed.

Lemma populates_targets self nt p t :
  populates self nt p t ↔ t ∈ targets self nt p.
Proof.
  unfold populates, targets. rewrite elem_of_app, list_elem_of_filter.
  rewrite elem_of_elements, (comm (∧) (t ≠ EPS)). apply or_iff_compat_l.
  destruct (decide (EPS ∈ first_alpha self p)) as [Hnull|Hnon].
  - rewrite elem_of_elements.
    destruct (follow_sets self !! nt) as [fol|]; simpl.
    + split; [by intros (_ & ? & [= <-] & ?)|]. intros Ht. eauto.
    + split; [by intros (_ & ? & [=] & _)|set_solver].
  - split; [by intros [? _]|by intros ?%elem_of_nil].
Qed.

(** *** A sequence of stores *)

Lemma assign_Ok a st st' :
  assign a st = Ok st' ↔
  ∃ cell,
    st.1 !! cell_of a = Some cell ∧
    st' = (<[cell_of a := Some a.1.2]> st.1,
           match cell with
           | Some _ => st.2 ++ [conflict_warning a.1.1 a.2]
           | None => st.2
           end).
Proof.
  unfold assign, assign_cell, cell_of. rewrite bind_Ok.
  split.
  - intros (cell & Hcell%getitem_Ok & [= <-]). by exists cell.
  - intros (cell & Hcell & ->). exists cell. by rewrite getitem_Ok.
Qed.

(** A cell no store of the sequence aims at keeps its content. *)
Lemma assigns_frame l st st' c :
  for_each l assign st = Ok st' →
  (∀ b, b ∈ l → cell_of b ≠ c) →
  st'.1 !! c = st.1 !! c.
Proof.
  revert st. induction l as [|a l IH]; intros st; simpl.
  - by intros [= <-].
  - intros (st1 & (cell & _ & ->)%assign_Ok & Hrest)%bind_Ok Hother.
    rewrite (IH _ Hrest) by (intros b Hb; apply Hother; by right).
    simpl. apply lookup_insert_ne, Hother. by left.
Qed.

(** A cell once taken stays taken. *)
Lemma assigns_taken l st st' c :
  for_each l assign st = Ok st' →
  (∃ p, st.1 !! c = Some (Some p)) →
  ∃ p, st'.1 !! c = Some (Some p).
Proof.
  revert st. induction l as [|a l IH]; intros st; simpl.
  - by intros [= <-].
  - intros (st1 & (cell & _ & ->)%assign_Ok & Hrest)%bind_Ok [p Hp].
    apply (IH _ Hrest). simpl.
    destruct (decide (cell_of a = c)) as [<-|].
    + rewrite lookup_insert_eq. by eexists.
    + rewrite lookup_insert_ne by done. by exists p.
Qed.

(** What was printed stays printed. *)
Lemma assigns_out l st st' w :
  for_each l assign st = Ok st' → w ∈ st.2 → w ∈ st'.2.
Proof.
  revert st. induction l as [|a l IH]; intros st; simpl.
  - by intros [= <-].
  - intros (st1 & (cell & _ & ->)%assign_Ok & Hrest)%bind_Ok Hw.
    apply (IH _ Hrest). simpl. destruct cell; [|done].
    apply elem_of_app. by left.
Qed.

(** The last store to a cell decides what the cell holds. *)
Lemma assigns_last l1 a l2 st st' :
  for_each (l1 ++ a :: l2) assign st = Ok st' →
  (∀ b, b ∈ l2 → cell_of b ≠ cell_of a) →
  st'.1 !! cell_of a = Some (Some a.1.2).
Proof.
  rewrite for_each_app. simpl.
  intros (st1 & _ & (st2 & (cell & _ & ->)%assign_Ok & Hrest)%bind_Ok)%bind_Ok.
  intros Hother. rewrite (assigns_frame _ _ _ _ Hrest Hother). simpl.
  apply lookup_insert_eq.
Qed.

(** A store to a cell that an earlier store of the sequence filled is
    announced. *)
Lemma assigns_warn l1 a l2 st st' :
  for_each (l1 ++ a :: l2) assign st = Ok st' →
  (∃ b, b ∈ l1 ∧ cell_of b = cell_of a) →
  conflict_warning a.1.1 a.2 ∈ st'.2.
Proof.
  rewrite for_each_app. simpl.
  intros (st1 & Hl1 & (st2 & (cell & Hcell & ->)%assign_Ok & Hrest)%bind_Ok)
           %bind_Ok.
  intros (b & Hb & Hsame).
  apply (assigns_out _ _ _ _ Hrest). simpl.
  assert (∃ p, st1.1 !! cell_of a = Some (Some p)) as [p Hp].
  { apply list_elem_of_split in Hb as (l1a & l1b & ->).
    rewrite for_each_app in Hl1. simpl in Hl1.
    apply bind_Ok in Hl1 as (s1 & _ & Hl1).
    apply bind_Ok in Hl1 as (s2 & (cellb & _ & ->)%assign_Ok & Hl1b).
    apply (assigns_taken _ _ _ _ Hl1b). simpl.
    rewrite Hsame, lookup_insert_eq. by eexists. }
  rewrite Hp in Hcell. injection Hcell as <-.
  apply elem_of_app. right. by apply list_elem_of_singleton.
Qed.

(** Stores to cells that differ from one another and are free at the start
    print nothing. *)
Lemma assigns_quiet l st st' :
  for_each l assign st = Ok st' →
  NoDup (cell_of <$> l) →
  (∀ a v, a ∈ l → st.1 !! cell_of a = Some v → v = None) →
  st'.2 = st.2.
Proof.
  revert st. induction l as [|a l IH]; intros st; csimpl.
  - by intros [= <-].
  - intros (st1 & (cell & Hcell & ->)%assign_Ok & Hrest)%bind_Ok.
    rewrite NoDup_cons. intros [Hfresh Hdup] Hfree.
    rewrite (IH _ Hrest Hdup); simpl.
    + rewrite (Hfree a cell); [done|by left|done].
    + intros b v Hb. rewrite lookup_insert_ne.
      * apply Hfree. by right.
      * intros Heq. apply Hfresh. rewrite Heq.
        apply list_elem_of_fmap. by exists b.
Qed.

Lemma init_table_free nts terms c v :
  init_table nts terms !! c = Some v → v = None.
Proof.
  unfold init_table.
  assert (∀ (l : list string) nt (tab : gmap (string * string) (option production)),
            (∀ c v, tab !! c = Some v → v = None) →
            ∀ c v,
              foldl (fun tab t => <[(nt, t) := None]> tab) tab l !! c = Some v →
              v = None) as Hrow.
  { induction l as [|t l IH]; intros nt tab Htab; simpl; [done|].
    apply IH. intros c' v'. destruct (decide ((nt, t) = c')) as [<-|].
    - rewrite lookup_insert_eq. by intros [= <-].
    - rewrite lookup_insert_ne by done. apply Htab. }
  assert (∀ (l : list string) (tab : gmap (string * string) (option production)),
            (∀ c v, tab !! c = Some v → v = None) →
            ∀ c v,
              foldl (fun tab nt =>
                       foldl (fun tab t => <[(nt, t) := None]> tab) tab terms)
                    tab l !! c = Some v →
              v = None) as Hall.
  { induction l as [|nt l IH]; intros tab Htab; simpl; [done|].
    apply IH. by apply Hrow. }
  revert c v. apply Hall. intros c v. by rewrite lookup_empty.
Qed.

Lemma production_stores_elem self nt p b :
  b ∈ production_stores self nt p ↔
  ∃ t, b = (nt, p, t) ∧ populates self nt p t.
Proof.
  unfold production_stores. rewrite list_elem_of_fmap.
  by setoid_rewrite populates_targets.
Qed.

Lemma non_terminal_stores_elem self nt b :
  b ∈ non_terminal_stores self nt → b.1.1 = nt.
Proof.
  unfold non_terminal_stores. rewrite list_elem_of_bind.
  intros (p & (t & -> & _)%production_stores_elem & _). done.
Qed.

Lemma build_parse_table_Ok self self' out :
  build_parse_table self = Ok (self', out) →
  ∃ tab,
    for_each (assignments self) assign
      (init_table (non_terminals self) (terminals self), []) = Ok (tab, out)
    ∧ self' = set_parse_table self tab.
Proof.
  unfold build_parse_table.
  intros ([tab out'] & Hfill%fill_table_assign & [= <- <-])%bind_Ok.
  by exists tab.
Qed.

(** Where, among all stores, the last one to a cell stands when production
    [j] of [nt] is the last to populate it and production [i] comes
    before. *)
Lemma assignments_split self nt prods i j p q t :
  nt ∈ non_terminals self →
  grammar_get (grammar self) nt = Some prods →
  prods !! i = Some p → prods !! j = Some q → i < j →
  populates self nt p t → populates self nt q t →
  (∀ k r, j < k → prods !! k = Some r → ¬ populates self nt r t) →
  ∃ l1 l2,
    assignments self = l1 ++ (nt, q, t) :: l2
    ∧ (∀ b, b ∈ l2 → cell_of b ≠ (nt, t))
    ∧ (nt, p, t) ∈ l1.
Proof.
  intros Hnt Hprods Hi Hj Hij Hp Hq Hlast.
  apply list_elem_of_split_r in Hnt as (n1 & n2 & Hnts & Hn2).
  apply populates_targets, list_elem_of_split_r in Hq
    as (t1 & t2 & Htargets & Ht2).
  exists ((n1 ≫= non_terminal_stores self)
          ++ (take j prods ≫= production_stores self nt)
          ++ ((fun t' => (nt, q, t')) <$> t1)),
         (((fun t' => (nt, q, t')) <$> t2)
          ++ (drop (S j) prods ≫= production_stores self nt)
          ++ (n2 ≫= non_terminal_stores self)).
  split; [|split].
  - unfold assignments. rewrite Hnts, bind_app, bind_cons.
    unfold non_terminal_stores at 2. rewrite Hprods. simpl.
    rewrite <- (take_drop_middle prods j q Hj) at 1.
    rewrite bind_app, bind_cons.
    unfold production_stores at 2. rewrite Htargets, fmap_app, fmap_cons.
    by rewrite <- !app_assoc.
  - intros b. rewrite !elem_of_app. intros [Hb|[Hb|Hb]].
    + apply list_elem_of_fmap in Hb as (t' & -> & Ht').
      unfold cell_of. simpl. intros [= ->]. done.
    + apply list_elem_of_bind in Hb as (r & Hb & Hr).
      apply production_stores_elem in Hb as (t' & -> & Hpop).
      unfold cell_of. simpl. intros [= ->].
      apply list_elem_of_lookup in Hr as [k Hk].
      rewrite lookup_drop in Hk. eapply (Hlast (S j + k)); [lia|done..].
    + apply list_elem_of_bind in Hb as (nt' & Hb & Hnt').
      apply non_terminal_stores_elem in Hb.
      unfold cell_of. intros [= Heq _]. congruence.
  - rewrite !elem_of_app. right. left. apply list_elem_of_bind.
    exists p. split.
    + apply production_stores_elem. by exists t.
    + apply elem_of_take. by exists i.
Qed.

(** C1, as the code has it. When two or more productions of a non-terminal
    populate one cell of the table, [build_parse_table] prints the conflict
    warning for that cell, and the cell ends up holding the production that
    populates it last: every store overwrites the one before. *)
Theorem build_parse_table_last_wins self self' out nt prods i j p q t :
  build_parse_table self = Ok (self', out) →
  nt ∈ non_terminals self →
  grammar_get (grammar self) nt = Some prods →
  prods !! i = Some p → prods !! j = Some q → i < j →
  populates self nt p t → populates self nt q t →
  (∀ k r, j < k → prods !! k = Some r → ¬ populates self nt r t) →
  conflict_warning nt t ∈ out
  ∧ parse_table self' !! (nt, t) = Some (Some q).
Proof.
  intros (tab & Hrun & ->)%build_parse_table_Ok Hnt Hprods Hi Hj Hij Hp Hq Hlast.
  destruct (assignments_split self nt prods i j p q t)
    as (l1 & l2 & Hsplit & Hl2 & Hl1); [done..|].
  rewrite Hsplit in Hrun. split.
  - apply (assigns_warn _ _ _ _ _ Hrun). by exists (nt, p, t).
  - apply (assigns_last _ _ _ _ _ Hrun Hl2).
Qed.

(** *** Tables without conflict *)

Lemma fmap_bind {A B C : Type} (f : B → C) (g : A → list B) (l : list A) :
  f <$> (l ≫= g) = l ≫= (fun x => f <$> g x).
Proof.
  induction l as [|x l IH]; [done|].
  by rewrite !bind_cons, fmap_app, IH.
Qed.

Lemma NoDup_bind_lookup {A B : Type} (l : list A) (f : A → list B) :
  (∀ i x, l !! i = Some x → NoDup (f x)) →
  (∀ i j x y z,
     i < j → l !! i = Some x → l !! j = Some y → z ∈ f x → z ∉ f y) →
  NoDup (l ≫= f).
Proof.
  induction l as [|x l IH]; intros Heach Hcross.
  - constructor.
  - rewrite bind_cons. apply NoDup_app. split; [|split].
    + by apply (Heach 0).
    + intros z Hz (y & Hzy & Hy)%list_elem_of_bind.
      apply list_elem_of_lookup in Hy as [j Hj].
      eapply (Hcross 0 (S j) x y z); [lia|done..].
    + apply IH.
      * intros i y Hy. by apply (Heach (S i)).
      * intros i j y y' z Hij Hy Hy'. apply (Hcross (S i) (S j)); [lia|done..].
Qed.

Lemma targets_NoDup self nt prods p :
  nt ∈ non_terminals self →
  grammar_get (grammar self) nt = Some prods →
  p ∈ prods →
  first_follow_free self →
  NoDup (targets self nt p).
Proof.
  intros Hnt Hprods Hp Hfree. unfold targets. apply NoDup_app.
  split; [|split].
  - apply NoDup_filter, NoDup_elements.
  - intros t [_ Ht%elem_of_elements]%list_elem_of_filter.
    destruct (decide (EPS ∈ first_alpha self p)) as [Hnull|];
      [|by intros ?%elem_of_nil].
    destruct (follow_sets self !! nt) as [fol|] eqn:Hfol; simpl.
    + rewrite elem_of_elements. intros Hin.
      by apply (Hfree nt prods p p fol Hnt Hprods Hp Hp Hnull Hfol t).
    + rewrite elements_empty. by intros ?%elem_of_nil.
  - destruct (decide (EPS ∈ first_alpha self p)); [|constructor].
    apply NoDup_elements.
Qed.

Lemma populates_apart self nt prods i j p q t :
  nt ∈ non_terminals self →
  grammar_get (grammar self) nt = Some prods →
  prods !! i = Some p → prods !! j = Some q → i ≠ j →
  first_first_free self → first_follow_free self →
  populates self nt p t → populates self nt q t → False.
Proof.
  intros Hnt Hprods Hi Hj Hij Hff Hfo Hp Hq.
  pose proof (Hff nt prods i j p q Hnt Hprods Hi Hj Hij) as Hdisj.
  assert (p ∈ prods) as Hpin by (apply list_elem_of_lookup; eauto).
  assert (q ∈ prods) as Hqin by (apply list_elem_of_lookup; eauto).
  destruct Hp as [[Hp _]|(Hpnull & fol & Hfol & Hpt)],
           Hq as [[Hq _]|(Hqnull & fol' & Hfol' & Hqt)].
  - by apply (Hdisj t).
  - by apply (Hfo nt prods q p fol' Hnt Hprods Hqin Hpin Hqnull Hfol' t).
  - by apply (Hfo nt prods p q fol Hnt Hprods Hpin Hqin Hpnull Hfol t).
  - by apply (Hdisj EPS).
Qed.

Lemma assignments_NoDup self :
  NoDup (non_terminals self) →
  first_first_free self → first_follow_free self →
  NoDup (cell_of <$> assignments self).
Proof.
  intros Hnts Hff Hfo. unfold assignments. rewrite fmap_bind.
  apply NoDup_bind_lookup.
  - intros _ nt Hnt%list_elem_of_lookup_2.
    unfold non_terminal_stores. rewrite fmap_bind.
    destruct (grammar_get (grammar self) nt) as [prods|] eqn:Hprods;
      [|constructor].
    simpl. apply NoDup_bind_lookup.
    + intros i p Hp. unfold production_stores.
      rewrite <- list_fmap_compose.
      apply (NoDup_fmap_2 (fun t => (nt, t))).
      eapply targets_NoDup; [done..| |done].
      apply list_elem_of_lookup. eauto.
    + intros i j p q c Hij Hp Hq.
      intros (b & -> & (t & -> & Hpt)%production_stores_elem)%list_elem_of_fmap.
      intros (b' & Hc & (t' & -> & Hqt)%production_stores_elem)%list_elem_of_fmap.
      unfold cell_of in Hc. simpl in Hc. injection Hc as ->.
      eapply (populates_apart self nt prods i j p q t'); try done. lia.
  - intros i j nt nt' c Hij Hnt Hnt'.
    intros (b & -> & Hb%non_terminal_stores_elem)%list_elem_of_fmap.
    intros (b' & Hc & Hb'%non_terminal_stores_elem)%list_elem_of_fmap.
    assert (nt = nt') as <-.
    { rewrite <- Hb, <- Hb'. unfold cell_of in Hc. congruence. }
    pose proof (NoDup_lookup _ _ _ _ Hnts Hnt Hnt'). lia.
Qed.

(** Without overlap there is no warning. *)
Lemma build_parse_table_quiet self self' out :
  NoDup (non_terminals self) →
  first_first_free self → first_follow_free self →
  build_parse_table self = Ok (self', out) →
  out = [].
Proof.
  intros Hnts Hff Hfo (tab & Hrun & _)%build_parse_table_Ok.
  apply (assigns_quiet _ _ _ Hrun).
  - by apply assignments_NoDup.
  - intros a v _. apply init_table_free.
Qed.

(** *** [build_parse_table] returns *)

Lemma init_table_is_Some nts terms nt t :
  nt ∈ nts → t ∈ terms → is_Some (init_table nts terms !! (nt, t)).
Proof.
  unfold init_table.
  assert (∀ (l : list string) nt' (tab : gmap (string * string) (option production)) c,
            is_Some (tab !! c) ∨ (c.1 = nt' ∧ c.2 ∈ l) →
            is_Some (foldl (fun tab t => <[(nt', t) := None]> tab) tab l !! c))
    as Hrow.
  { induction l as [|t' l IH]; intros nt' tab c; simpl.
    - intros [?|[_ ?%elem_of_nil]]; done.
    - intros Hc. apply IH. destruct (decide ((nt', t') = c)) as [<-|Hne].
      + left. by rewrite lookup_insert_eq.
      + rewrite lookup_insert_ne by done.
        destruct Hc as [?|[Hnt Ht]]; [by left|].
        apply elem_of_cons in Ht as [Ht|Ht]; [|by right].
        destruct c. simpl in *. congruence. }
  assert (∀ (l : list string) (tab : gmap (string * string) (option production)) c,
            is_Some (tab !! c) ∨ (c.1 ∈ l ∧ c.2 ∈ terms) →
            is_Some (foldl (fun tab nt' =>
                              foldl (fun tab t => <[(nt', t) := None]> tab)
                                    tab terms) tab l !! c))
    as Hall.
  { induction l as [|nt' l IH]; intros tab c; simpl.
    - intros [?|[?%elem_of_nil _]]; done.
    - intros Hc. apply IH. destruct Hc as [?|[Hnt Ht]].
      + left. apply Hrow. by left.
      + apply elem_of_cons in Hnt as [Hnt|Hnt]; [|by right].
        left. apply Hrow. by right. }
  intros Hnt Ht. apply Hall. by right.
Qed.

Lemma assign_cell_total self nt p t st :
  nt ∈ non_terminals self → t ∈ terminals self →
  gridded self st.1 →
  ∃ st', assign_cell nt p t st = Ok st' ∧ gridded self st'.1.
Proof.
  intros Hnt Ht Hgrid. unfold assign_cell.
  destruct (Hgrid nt t Hnt Ht) as [cell Hcell].
  rewrite (proj2 (getitem_Ok _ _ _) Hcell). simpl.
  eexists. split; [done|]. simpl. intros nt' t' Hnt' Ht'.
  destruct (decide ((nt, t) = (nt', t'))) as [<-|].
  - by rewrite lookup_insert_eq.
  - rewrite lookup_insert_ne by done. by apply Hgrid.
Qed.

Lemma first_alpha_terminal self p t :
  bounded (first_universe self) (first_sets self) →
  t ∈ first_alpha self p → t ≠ EPS → t ∈ terminals self.
Proof.
  intros Hb Ht Hne. unfold first_alpha in Ht.
  rewrite compute_first_for_sequence_eq in Ht.
  apply first_of_sequence_elem in Ht as [->|[Ht|(k & v & Hv & Ht)]];
    [done..|].
  apply Hb in Hv. apply Hv in Ht. unfold first_universe in Ht. set_solver.
Qed.

Lemma fill_production_total self nt p st :
  bounded (first_universe self) (first_sets self) →
  covers (non_terminals self) (follow_sets self) →
  bounded (list_to_set (terminals self)) (follow_sets self) →
  nt ∈ non_terminals self →
  gridded self st.1 →
  ∃ st', fill_production self nt p st = Ok st' ∧ gridded self st'.1.
Proof.
  intros Hfirst Hcov Hfollow Hnt Hgrid. unfold fill_production.
  fold (first_alpha self p).
  destruct (for_each_total (fun st => gridded self st.1)
              (elements (first_alpha self p))
              (fun terminal st =>
                 if decide (terminal ≠ EPS)
                 then assign_cell nt p terminal st else Ok st))
    with (s := st) as (st1 & -> & Hgrid1); [|done|].
  { intros t s Ht%elem_of_elements Hs. case_decide; [|by exists s].
    apply assign_cell_total; [done| |done].
    by eapply first_alpha_terminal. }
  simpl. destruct (decide (EPS ∈ first_alpha self p)); [|by exists st1].
  destruct (Hcov nt Hnt) as [fol Hfol].
  rewrite (proj2 (getitem_Ok _ _ _) Hfol). simpl.
  apply (for_each_total (fun st => gridded self st.1)); [|done].
  intros t s Ht%elem_of_elements Hs.
  apply assign_cell_total; [done| |done].
  apply Hfollow in Hfol. apply Hfol in Ht. set_solver.
Qed.

Lemma build_parse_table_total self :
  keyed self →
  bounded (first_universe self) (first_sets self) →
  covers (non_terminals self) (follow_sets self) →
  bounded (list_to_set (terminals self)) (follow_sets self) →
  ∃ self' out, build_parse_table self = Ok (self', out).
Proof.
  intros Hkeyed Hfirst Hcov Hfollow. unfold build_parse_table, fill_table.
  destruct (for_each_total (fun st => gridded self st.1)
              (non_terminals self)
              (fun non_terminal st =>
                 prods ← grammar_getitem (grammar self) non_terminal;
                 for_each prods (fill_production self non_terminal) st))
    with (s := (init_table (non_terminals self) (terminals self),
                ([] : list string)))
    as ([tab out] & -> & _).
  - intros nt s Hnt Hs.
    unfold keyed in Hkeyed. rewrite Forall_forall in Hkeyed.
    destruct (Hkeyed nt Hnt) as [prods Hprods].
    apply grammar_getitem_Ok in Hprods as ->. simpl.
    apply (for_each_total (fun st => gridded self st.1)); [|done].
    intros p s' _ Hs'. by apply fill_production_total.
  - intros nt t. apply init_table_is_Some.
  - simpl. by eexists _, _.
Qed.

Lemma compute_follow_sets_covers self self2 :
  keyed self →
  compute_follow_sets self = Ok self2 →
  covers (non_terminals self) (follow_sets self2).
Proof.
  intros Hkeyed (fol0 & fol & Hseed & Hloop & ->)%compute_follow_sets_Ok.
  simpl. revert Hloop. unfold follow_loop.
  apply (while_changed_inv (follow_pass self)).
  - intros d st Hd Hst.
    destruct (follow_pass_total self d Hkeyed Hd) as (st' & Hst' & Hcov).
    rewrite Hst in Hst'. by injection Hst' as <-.
  - unfold seed_follow in Hseed.
    destruct (start_symbol self) as [s|]; [|done].
    apply bind_Ok in Hseed as (cur & _ & [= <-]).
    apply covers_insert. intros k. apply empty_sets_is_Some.
Qed.

(** The three calls of [main] return on every well-formed parser object. *)
Lemma analyse_total self :
  well_formed self → ∃ self' out, analyse self = Ok (self', out).
Proof.
  intros (Hkeyed & Hstarted & _ & Heoi). unfold analyse.
  destruct (compute_first_sets_total self Hkeyed) as [self1 Hfirst].
  pose proof (compute_first_sets_bounded _ _ Hfirst) as Hb.
  destruct (compute_first_sets_Ok _ _ Hfirst) as (fs & _ & ->).
  rewrite Hfirst. simpl.
  destruct (compute_follow_sets_total (set_first_sets self fs))
    as [self2 Hfollow]; [done..|].
  rewrite Hfollow. simpl.
  destruct (compute_follow_sets_content _ _ Hb Hfollow) as [Hin _].
  pose proof (compute_follow_sets_covers (set_first_sets self fs) _
                Hkeyed Hfollow) as Hcov.
  destruct (compute_follow_sets_Ok _ _ Hfollow) as (fol0 & fol & _ & _ & ->).
  apply build_parse_table_total; simpl in *; [done..|].
  intros k v Hv. apply Hin in Hv. set_solver.
Qed.

(** *** What [read_grammar] leaves behind *)

Lemma grammar_get_is_Some g nt : is_Some (grammar_get g nt) ↔ nt ∈ g.*1.
Proof.
  induction g as [|[k ps] g IH]; csimpl.
  - split; [by intros [? [=]]|by intros ?%elem_of_nil].
  - rewrite elem_of_cons. destruct (decide (k = nt)) as [->|Hne].
    + split; [by left|by eexists].
    + rewrite IH. split; [by right|]. by intros [?|?].
Qed.

Lemma grammar_extend_keys g nt ps : (grammar_extend g nt ps).*1 = g.*1.
Proof.
  induction g as [|[k qs] g IH]; csimpl; [done|].
  destruct (decide (k = nt)); csimpl; [done|]. by rewrite IH.
Qed.

Lemma read_line_keys st raw :
  non_terminals st.1 = (grammar st.1).*1 ∧ NoDup (non_terminals st.1) →
  non_terminals (read_line st raw).1 = (grammar (read_line st raw).1).*1
  ∧ NoDup (non_terminals (read_line st raw).1).
Proof.
  destruct st as [self out]. unfold read_line. cbv zeta.
  destruct (_ || _); [done|]. destruct (negb _); [done|].
  simpl. intros [Hkeys Hdup].
  set (nt := Str.strip (nth 0 (Str.split "->" (Str.strip raw)) EmptyString)).
  rewrite grammar_extend_keys. unfold grammar_setdefault.
  destruct (grammar_get (grammar self) nt) as [ps|] eqn:Hget.
  - assert (nt ∈ non_terminals self) as Hin.
    { rewrite Hkeys. apply grammar_get_is_Some. by eexists. }
    rewrite bool_decide_eq_false_2 by (by intros ?). done.
  - assert (nt ∉ non_terminals self) as Hnotin.
    { rewrite Hkeys. intros [? Hsome]%grammar_get_is_Some. congruence. }
    rewrite bool_decide_eq_true_2 by done.
    rewrite fmap_app, Hkeys. split; [done|].
    rewrite <- Hkeys. apply NoDup_app. split; [done|]. split.
    + intros x Hx ->%list_elem_of_singleton. done.
    + apply NoDup_singleton.
Qed.

Lemma read_lines_keys lines st :
  non_terminals st.1 = (grammar st.1).*1 ∧ NoDup (non_terminals st.1) →
  non_terminals (foldl read_line st lines).1
  = (grammar (foldl read_line st lines).1).*1
  ∧ NoDup (non_terminals (foldl read_line st lines).1).
Proof.
  revert st. induction lines as [|raw lines IH]; intros st Hst; simpl; [done|].
  by apply IH, read_line_keys.
Qed.

(** Every grammar [read_grammar] accepts, on a fresh parser object, is
    well formed. *)
Lemma read_grammar_well_formed lines self out :
  read_grammar init (Some lines) = (true, self, out) →
  well_formed self.
Proof.
  unfold read_grammar.
  pose proof (read_lines_keys lines (init, [])) as Hkeys.
  destruct (foldl read_line (init, []) lines) as [self1 out1].
  simpl in Hkeys. destruct Hkeys as [Hkeys Hdup]; [by split; [|constructor]|].
  destruct (grammar self1) as [|[k ps] g] eqn:Hg; [done|].
  intros [= <- _]. unfold well_formed, keyed, started. simpl.
  split; [|split; [|split]].
  - apply Forall_forall. intros nt Hnt.
    apply (grammar_get_is_Some ((k, ps) :: g)). by rewrite <- Hkeys.
  - exists k. split; [done|]. rewrite Hkeys. by left.
  - done.
  - apply elem_of_app. right. by left.
Qed.

(** ** The claims about the table, on whole runs *)

Lemma analyse_prepared self self' out :
  analyse self = Ok (self', out) →
  build_parse_table (prepared self) = Ok (self', out)
  ∧ non_terminals (prepared self) = non_terminals self.
Proof.
  unfold analyse, prepared.
  intros (self1 & Hfirst & (self2 & Hfollow & Hbuild)%bind_Ok)%bind_Ok.
  rewrite Hfirst. simpl. rewrite Hfollow. split; [done|].
  apply compute_first_sets_Ok in Hfirst as (fs & _ & ->).
  by apply compute_follow_sets_Ok in Hfollow as (fol0 & fol & _ & _ & ->).
Qed.

(** C4, as the code has it. On a well-formed grammar in which no two
    alternatives of a non-terminal have FIRST sets with a common symbol, and
    in which, wherever a non-terminal has a nullable alternative, no
    alternative of it has a FIRST set with a symbol of its FOLLOW set, the
    analysis returns and [build_parse_table] prints no conflict warning. *)
Theorem no_overlap_no_conflict (self : LL1Parser) :
  well_formed self →
  first_first_free (prepared self) →
  first_follow_free (prepared self) →
  ∃ self' out, analyse self = Ok (self', out) ∧ out = [].
Proof.
  intros Hwf Hff Hfo.
  destruct (analyse_total self Hwf) as (self' & out & Hrun).
  exists self', out. split; [done|].
  apply analyse_prepared in Hrun as [Hbuild Hnts].
  apply (build_parse_table_quiet (prepared self) self' out); [|done..].
  rewrite Hnts. apply Hwf.
Qed.

Lemma parser_of_well_formed lines :
  (read_grammar init (Some lines)).1.1 = true → well_formed (parser_of lines).
Proof.
  intros Hok. unfold parser_of.
  apply (read_grammar_well_formed lines _ (read_grammar init (Some lines)).2).
  destruct (read_grammar init (Some lines)) as [[ok self] out].
  simpl in *. by subst.
Qed.

Lemma expression_grammar_first_first :
  first_first_free (prepared expression_grammar).
Proof.
  intros nt prods i j p q Hnt Hprods Hi Hj Hij.
  replace (non_terminals (prepared expression_grammar))
    with ["E"; "X"; "T"; "Y"; "F"] in Hnt by (vm_compute; reflexivity).
  members Hnt; vm_compute in Hprods; injection Hprods as <-;
    at_index i Hi; at_index j Hj;
    first [exfalso; apply Hij; reflexivity | evaluate].
Qed.

Lemma expression_grammar_first_follow :
  first_follow_free (prepared expression_grammar).
Proof.
  intros nt prods p q fol Hnt Hprods Hp Hq Hnull Hfol.
  replace (non_terminals (prepared expression_grammar))
    with ["E"; "X"; "T"; "Y"; "F"] in Hnt by (vm_compute; reflexivity).
  members Hnt; vm_compute in Hprods; injection Hprods as <-;
    looked_up Hfol;
    members Hp; members Hq; first [evaluate | refute Hnull].
Qed.

Lemma no_overlap_no_conflict_witness :
  ∃ self' out, analyse expression_grammar = Ok (self', out) ∧ out = [].
Proof.
  apply (no_overlap_no_conflict expression_grammar).
  - apply parser_of_well_formed. vm_compute. reflexivity.
  - apply expression_grammar_first_first.
  - apply expression_grammar_first_follow.
Defined.

Lemma ambiguous_grammar_prepared :
  build_parse_table (prepared ambiguous_grammar)
  = Ok (analysed ambiguous_grammar,
        ["Warning: Conflict in parse table for (S, a)"]).
Proof. vm_compute. reflexivity. Qed.

Lemma build_parse_table_last_wins_witness :
  conflict_warning "S" "a" ∈ ["Warning: Conflict in parse table for (S, a)"]
  ∧ parse_table (analysed ambiguous_grammar) !! ("S", "a")
    = Some (Some ["a"; "b"]).
Proof.
  apply (build_parse_table_last_wins (prepared ambiguous_grammar)
           (analysed ambiguous_grammar)
           ["Warning: Conflict in parse table for (S, a)"]
           "S" [["a"]; ["a"; "b"]] 0 1 ["a"] ["a"; "b"] "a").
  - apply ambiguous_grammar_prepared.
  - vm_compute. left.
  - vm_compute. reflexivity.
  - reflexivity.
  - reflexivity.
  - lia.
  - left. split; [evaluate|done].
  - left. split; [evaluate|done].
  - intros [|[|k]] r Hk; [lia..|done].
Defined.

(** The grammar [S -> a | a b]: both productions populate the cell (S, a),
    [S -> a] is stored first, and the cell ends up with [S -> a b]. *)
Lemma first_production_overwritten :
  ∃ self out,
    analyse ambiguous_grammar = Ok (self, out) ∧
    grammar_get (grammar self) "S" = Some [["a"]; ["a"; "b"]] ∧
    populates self "S" ["a"] "a" ∧
    populates self "S" ["a"; "b"] "a" ∧
    conflict_warning "S" "a" ∈ out ∧
    parse_table self !! ("S", "a") = Some (Some ["a"; "b"]) ∧
    parse_table self !! ("S", "a") ≠ Some (Some ["a"]).
Proof.
  exists (analysed ambiguous_grammar),
         ["Warning: Conflict in parse table for (S, a)"].
  split; [vm_compute; reflexivity|].
  split; [vm_compute; reflexivity|].
  split; [left; split; [evaluate|done]|].
  split; [left; split; [evaluate|done]|].
  split; [vm_compute; left|].
  assert (parse_table (analysed ambiguous_grammar) !! ("S", "a")
          = Some (Some ["a"; "b"])) as -> by (vm_compute; reflexivity).
  done.
Qed.

(** C8. For the grammar [S -> a | a b], the analysis returns and what
    [build_parse_table] prints is the conflict warning for the cell
    (S, a). *)
Theorem ambiguous_grammar_conflict :
  grammar ambiguous_grammar = [("S", [["a"]; ["a"; "b"]])] ∧
  ∃ self1 self2 self3 out,
    compute_first_sets ambiguous_grammar = Ok self1 ∧
    compute_follow_sets self1 = Ok self2 ∧
    build_parse_table self2 = Ok (self3, out) ∧
    out = [conflict_warning "S" "a"] ∧
    conflict_warning "S" "a" = "Warning: Conflict in parse table for (S, a)".
Proof.
  split; [vm_compute; reflexivity|].
  destruct (compute_first_sets ambiguous_grammar) as [self1| |] eqn:Hfirst;
    [|by vm_compute in Hfirst..].
  destruct (compute_follow_sets self1) as [self2| |] eqn:Hfollow.
  2,3: apply compute_first_sets_Ok in Hfirst as (fs & Hfs & ->);
       vm_compute in Hfs; injection Hfs as <-; by vm_compute in Hfollow.
  exists self1, self2, (analysed ambiguous_grammar),
         ["Warning: Conflict in parse table for (S, a)"].
  split; [done|]. split; [done|]. split; [|done].
  rewrite <- ambiguous_grammar_prepared. f_equal.
  unfold prepared. rewrite Hfirst. simpl. by rewrite Hfollow.
Qed.

Lemma nullable_grammar_first_first :
  first_first_free (prepared nullable_grammar).
Proof.
  intros nt prods i j p q Hnt Hprods Hi Hj Hij.
  replace (non_terminals (prepared nullable_grammar))
    with ["S"; "A"] in Hnt by (vm_compute; reflexivity).
  members Hnt; vm_compute in Hprods; injection Hprods as <-;
    at_index i Hi; at_index j Hj;
    first [exfalso; apply Hij; reflexivity | evaluate].
Qed.

Lemma nullable_grammar_nullable_follow :
  nullable_follow_free (prepared nullable_grammar).
Proof.
  intros nt prods p fol Hnt Hprods Hp Hnull Hfol.
  replace (non_terminals (prepared nullable_grammar))
    with ["S"; "A"] in Hnt by (vm_compute; reflexivity).
  members Hnt; vm_compute in Hprods; injection Hprods as <-;
    looked_up Hfol;
    members Hp; first [evaluate | refute Hnull].
Qed.

(** The grammar [S -> A a], [A -> a | ε]: the two alternatives of [A] have
    FIRST sets apart, and the nullable one has none of FOLLOW(A) in its
    FIRST set; yet [a] is in FIRST of the other alternative and in
    FOLLOW(A), and [build_parse_table] prints a conflict for (A, a). *)
Lemma other_alternative_overlap :
  well_formed nullable_grammar ∧
  first_first_free (prepared nullable_grammar) ∧
  nullable_follow_free (prepared nullable_grammar) ∧
  ∃ self out,
    analyse nullable_grammar = Ok (self, out) ∧
    build_parse_table (prepared nullable_grammar) = Ok (self, out) ∧
    out = [conflict_warning "A" "a"] ∧ out ≠ [].
Proof.
  split; [apply parser_of_well_formed; vm_compute; reflexivity|].
  split; [apply nullable_grammar_first_first|].
  split; [apply nullable_grammar_nullable_follow|].
  exists (analysed nullable_grammar), [conflict_warning "A" "a"].
  split; [vm_compute; reflexivity|].
  split; [vm_compute; reflexivity|]. done.
Qed.

(** * Further properties of the code *)

(** ** [read_grammar] *)








Lemma read_grammar_parts self lines :
  read_grammar self (Some lines)
  = (match grammar (foldl read_line (self, []) lines).1 with
     | [] => false
     | _ :: _ => true
     end,
     (read_grammar self (Some lines)).1.2,
     (foldl read_line (self, []) lines).2
     ++ match grammar (foldl read_line (self, []) lines).1 with
        | [] => ["Error: No production rules found!"]
        | _ :: _ => []
        end)
  ∧ grammar (read_grammar self (Some lines)).1.2
    = grammar (foldl read_line (self, []) lines).1
  ∧ non_terminals (read_grammar self (Some lines)).1.2
    = non_terminals (foldl read_line (self, []) lines).1.
Proof.
  unfold read_grammar.
  destruct (foldl read_line (self, []) lines) as [self1 out]. simpl.
  destruct (grammar self1) as [|[k ps] g] eqn:Hg; simpl.
  - done.
  - by rewrite app_nil_r.
Qed.








(** X5. Every grammar that [read_grammar] accepts on a fresh object is well
    formed: each non-terminal has its list of productions, no non-terminal
    is listed twice, the start symbol is one of them, and the terminals hold
    the end-of-input marker. *)
Theorem read_grammar_invariant (lines : list string) (self : LL1Parser)
  (out : list string) :
  read_grammar init (Some lines) = (true, self, out) →
  keyed self ∧ started self ∧ NoDup (non_terminals self)
  ∧ EOI ∈ terminals self
  ∧ non_terminals self = (grammar self).*1.
Proof.
  intros Hread. pose proof (read_grammar_well_formed _ _ _ Hread) as Hwf.
  destruct Hwf as (? & ? & ? & ?). repeat (split; [done|]).
  destruct (read_grammar_parts init lines) as (_ & Hg & Hn).
  rewrite Hread in Hg, Hn. simpl in Hg, Hn. rewrite Hg, Hn.
  apply (read_lines_keys lines (init, [])). split; [done|constructor].
Qed.

Lemma read_grammar_invariant_witness :
  keyed expression_grammar ∧ started expression_grammar
  ∧ NoDup (non_terminals expression_grammar)
  ∧ EOI ∈ terminals expression_grammar
  ∧ non_terminals expression_grammar = (grammar expression_grammar).*1.
Proof.
  apply (read_grammar_invariant
           ["E -> T X"; "X -> + T X | ε"; "T -> F Y"; "Y -> * F Y | ε";
            "F -> ( E ) | id"] expression_grammar []).
  vm_compute. reflexivity.
Defined.

(** X6. The three computations [main] runs on a grammar that [read_grammar]
    accepted all return: neither [compute_first_sets] nor
    [compute_follow_sets] nor [build_parse_table] raises an exception, and
    none runs forever. *)
Theorem analysis_never_fails (lines : list string) (self : LL1Parser)
  (out : list string) :
  read_grammar init (Some lines) = (true, self, out) →
  ∃ self1 self2 self3 warnings,
    compute_first_sets self = Ok self1 ∧
    compute_follow_sets self1 = Ok self2 ∧
    build_parse_table self2 = Ok (self3, warnings).
Proof.
  intros Hwf%read_grammar_well_formed.
  destruct (analyse_total self Hwf) as (self3 & warnings & Hrun).
  unfold analyse in Hrun.
  apply bind_Ok in Hrun as (self1 & Hfirst & Hrun).
  apply bind_Ok in Hrun as (self2 & Hfollow & Hbuild).
  by exists self1, self2, self3, warnings.
Qed.

Lemma analysis_never_fails_witness :
  ∃ self1 self2 self3 warnings,
    compute_first_sets expression_grammar = Ok self1 ∧
    compute_follow_sets self1 = Ok self2 ∧
    build_parse_table self2 = Ok (self3, warnings).
Proof.
  apply (analysis_never_fails
           ["E -> T X"; "X -> + T X | ε"; "T -> F Y"; "Y -> * F Y | ε";
            "F -> ( E ) | id"] expression_grammar []).
  vm_compute. reflexivity.
Defined.

(** ** [_find_terminals] *)

Lemma terminals_of_production_elem nts p (acc : gset string) s :
  s ∈ terminals_of_production nts p acc
  ↔ s ∈ acc ∨ (s ∈ p ∧ s ≠ EPS ∧ s ∉ nts).
Proof.
  unfold terminals_of_production. revert acc.
  induction p as [|x p IH]; intros acc; simpl.
  - split; [by left|]. by intros [?|[?%elem_of_nil _]].
  - rewrite IH. rewrite elem_of_cons.
    destruct (bool_decide (x ≠ EPS)) eqn:Heps;
      destruct (bool_decide (x ∉ nts)) eqn:Hnt; simpl;
      try apply bool_decide_eq_true in Heps;
      try apply bool_decide_eq_true in Hnt;
      try apply bool_decide_eq_false in Heps;
      try apply bool_decide_eq_false in Hnt.
    + rewrite elem_of_union, elem_of_singleton. naive_solver.
    + naive_solver.
    + naive_solver.
    + naive_solver.
Qed.

Lemma terminals_of_productions_elem nts (ps : list production)
  (acc : gset string) s :
  s ∈ foldl (fun acc p => terminals_of_production nts p acc) acc ps
  ↔ s ∈ acc ∨ ∃ p, p ∈ ps ∧ s ∈ p ∧ s ≠ EPS ∧ s ∉ nts.
Proof.
  revert acc. induction ps as [|p ps IH]; intros acc; simpl.
  - split; [by left|]. by intros [?|(? & ?%elem_of_nil & _)].
  - rewrite IH, terminals_of_production_elem. setoid_rewrite elem_of_cons.
    naive_solver.
Qed.

Lemma terminals_of_grammar_elem nts (g : list (string * list production))
  (acc : gset string) s :
  s ∈ foldl (fun acc item =>
               foldl (fun acc p => terminals_of_production nts p acc)
                     acc (snd item)) acc g
  ↔ s ∈ acc ∨ ∃ nt ps p, (nt, ps) ∈ g ∧ p ∈ ps ∧ s ∈ p ∧ s ≠ EPS ∧ s ∉ nts.
Proof.
  revert acc. induction g as [|[nt ps] g IH]; intros acc; simpl.
  - split; [by left|]. by intros [?|(? & ? & ? & ?%elem_of_nil & _)].
  - rewrite IH, terminals_of_productions_elem. setoid_rewrite elem_of_cons.
    split.
    + intros [[?|(p & ? & ?)]|(nt' & ps' & p & ? & ?)]; [by left|right..].
      * exists nt, ps, p. split; [by left|done].
      * exists nt', ps', p. split; [by right|done].
    + intros [?|(nt' & ps' & p & [[= -> ->]|?] & ?)].
      * left. by left.
      * left. right. by exists p.
      * right. by exists nt', ps', p.
Qed.

Lemma insert_sorted_perm x l : Str.insert_sorted x l ≡ₚ x :: l.
Proof.
  induction l as [|y l IH]; simpl; [done|].
  destruct (String.leb x y); [done|]. rewrite IH. apply Permutation_swap.
Qed.

Lemma sorted_perm l : Str.sorted l ≡ₚ l.
Proof.
  unfold Str.sorted. induction l as [|x l IH]; simpl; [done|].
  by rewrite insert_sorted_perm, IH.
Qed.

Lemma insert_sorted_Sorted x l :
  Sorted (fun a b => String.leb a b = true) l →
  Sorted (fun a b => String.leb a b = true) (Str.insert_sorted x l).
Proof.
  induction 1 as [|y l Hsorted IH Hhd]; simpl.
  - by repeat constructor.
  - destruct (String.leb x y) eqn:Hxy.
    + constructor; [by constructor|by constructor].
    + constructor; [done|].
      assert (String.leb y x = true) as Hyx
        by (destruct (String.leb_total x y); congruence).
      destruct Hhd as [|z l Hyz]; simpl.
      * by constructor.
      * destruct (String.leb x z); by constructor.
Qed.

Lemma sorted_Sorted l :
  Sorted (fun a b => String.leb a b = true) (Str.sorted l).
Proof.
  unfold Str.sorted. induction l as [|x l IH]; simpl; [constructor|].
  by apply insert_sorted_Sorted.
Qed.

(** X7. The terminals [_find_terminals] sets are the end-of-input marker
    and exactly the symbols of the production bodies that are neither the
    empty marker nor a non-terminal. *)
Theorem find_terminals_classifies (self : LL1Parser) (s : string) :
  s ∈ terminals (find_terminals self)
  ↔ s = EOI
    ∨ (s ≠ EPS ∧ (s ∉ non_terminals self)
       ∧ ∃ nt ps p, (nt, ps) ∈ grammar self ∧ p ∈ ps ∧ s ∈ p).
Proof.
  unfold find_terminals. simpl.
  rewrite elem_of_app, list_elem_of_singleton, sorted_perm, elem_of_elements.
  rewrite terminals_of_grammar_elem. set_solver.
Qed.

(** X8. The list of terminals is sorted and free of duplicates up to its
    last entry, the end-of-input marker, which is appended whether or not a
    production already uses it. *)
Theorem find_terminals_sorted (self : LL1Parser) :
  ∃ l,
    terminals (find_terminals self) = l ++ [EOI] ∧
    NoDup l ∧ Sorted (fun a b => String.leb a b = true) l.
Proof.
  unfold find_terminals. simpl. eexists. split; [done|]. split.
  - rewrite sorted_perm. apply NoDup_elements.
  - apply sorted_Sorted.
Qed.

(** X9. In a grammar [read_grammar] accepted, every symbol of every
    production is the empty marker, a non-terminal or a terminal; the empty
    marker is no terminal, and no non-terminal other than one named like the
    end-of-input marker is a terminal. *)
Theorem read_grammar_symbols (lines : list string) (self : LL1Parser)
  (out : list string) :
  read_grammar init (Some lines) = (true, self, out) →
  (∀ nt ps p s,
     grammar_get (grammar self) nt = Some ps → p ∈ ps → s ∈ p →
     s = EPS ∨ s ∈ non_terminals self ∨ s ∈ terminals self) ∧
  (EPS ∉ terminals self) ∧
  (∀ s, s ∈ terminals self → s ∈ non_terminals self → s = EOI).
Proof.
  unfold read_grammar.
  destruct (foldl read_line (init, []) lines) as [self1 out1].
  destruct (grammar self1) as [|[k ps0] g] eqn:Hg; [done|].
  intros [= <- _]. rewrite <- Hg.
  set (self2 := {| grammar := grammar self1;
                   non_terminals := non_terminals self1;
                   terminals := terminals self1;
                   first_sets := first_sets self1;
                   follow_sets := follow_sets self1;
                   parse_table := parse_table self1;
                   start_symbol := Some k |}).
  assert (∀ nt ps, grammar_get (grammar self1) nt = Some ps →
                   (nt, ps) ∈ grammar self1) as Hget.
  { intros nt ps. generalize (grammar self1). intros g'.
    induction g' as [|[k' ps'] g' IH]; simpl; [done|].
    destruct (decide (k' = nt)) as [->|].
    - intros [= ->]. by left.
    - intros ?. right. by apply IH. }
  split; [|split].
  - intros nt ps p s Hps Hp Hs.
    destruct (decide (s = EPS)) as [|Hne]; [by left|right].
    destruct (decide (s ∈ non_terminals self1)) as [|Hnt]; [by left|right].
    apply (find_terminals_classifies self2). right.
    split; [done|]. split; [done|]. exists nt, ps, p. split; [|done].
    by apply Hget.
  - intros [[=]|[? _]]%(find_terminals_classifies self2). done.
  - intros s [?|[_ [? _]]]%(find_terminals_classifies self2); done.
Qed.

Lemma read_grammar_symbols_witness :
  (∀ nt ps p s,
     grammar_get (grammar expression_grammar) nt = Some ps → p ∈ ps → s ∈ p →
     s = EPS ∨ s ∈ non_terminals expression_grammar
     ∨ s ∈ terminals expression_grammar) ∧
  (EPS ∉ terminals expression_grammar) ∧
  (∀ s, s ∈ terminals expression_grammar →
        s ∈ non_terminals expression_grammar → s = EOI).
Proof.
  apply (read_grammar_symbols
           ["E -> T X"; "X -> + T X | ε"; "T -> F Y"; "Y -> * F Y | ε";
            "F -> ( E ) | id"] expression_grammar []).
  vm_compute. reflexivity.
Defined.
